(** * gophen: hyphenation positions from TeX-style pattern dictionaries

    A shallow embedding of [gophen.go] (the dictionary loader [NewHyphDict],
    the exception-clause parser [AlternativeParser] and the position engine
    [Positions]) together with the properties of the specification that can
    be settled on it.

    Go strings are byte sequences, so a string is a [list byte]; a Go [int]
    that only serves as an index or a length is a [nat]; a Go [int] that is
    a weight or the parser's counter is a [Z] (64-bit wrap-around is written
    out where the source does arithmetic on it). A run-time panic (index or
    slice out of range) is the outcome [Panic], a returned [error] is the
    outcome [Err]. *)

From Stdlib Require Import ZArith NArith Lia List Bool Sorted Permutation.
From Stdlib Require Import Strings.Byte Strings.String Strings.Ascii.
From Stdlib Require Import DecimalString.
From stdpp Require Import base option list countable gmap.

Local Open Scope nat_scope.

(** ** Outcomes of a Go call *)

Inductive result (A : Type) : Type :=
  | Ok (a : A)
  | Err
  | Panic.
Arguments Ok {A} a.
Arguments Err {A}.
Arguments Panic {A}.

Definition rbind {A B} (r : result A) (k : A -> result B) : result B :=
  match r with
  | Ok a => k a
  | Err => Err
  | Panic => Panic
  end.

Notation "x <-- r ;; k" := (rbind r (fun x => k))
  (at level 100, r at next level, right associativity, only parsing).

Fixpoint foldM {A B} (f : A -> B -> result A) (a : A) (l : list B) : result A :=
  match l with
  | [] => Ok a
  | b :: l' => a' <-- f a b ;; foldM f a' l'
  end.

(** ** Bytes and strings *)

Definition gostring := list byte.

Definition str (s : string) : gostring := list_byte_of_string s.

Definition code (c : byte) : N := Byte.to_N c.

#[global] Instance byte_eq_dec : EqDecision byte := Byte.byte_eq_dec.

#[global] Program Instance byte_countable : Countable byte :=
  inj_countable Byte.to_N Byte.of_N _.
Next Obligation. intros b. apply Byte.of_to_N. Qed.

Definition is_ascii (c : byte) : bool := (code c <? 128)%N.
Definition in_range (lo hi : N) (c : byte) : bool :=
  ((lo <=? code c) && (code c <=? hi))%N.
Definition is_digit (c : byte) : bool := in_range 48 57 c.

Definition byte_of (n : N) : byte :=
  match Byte.of_N (n mod 256) with
  | Some b => b
  | None => x00
  end.

(** ** The pieces of Go's standard library the program calls *)

Module utf8.

(** [utf8.first] and [utf8.acceptRanges]: for a leading byte, the length of
    the sequence it announces and the range its second byte must lie in;
    [None] for the bytes marked [as] (ASCII) and [xx] (invalid), which both
    decode with width 1. *)
Definition first (c : byte) : option (nat * (N * N)) :=
  let n := code c in
  if (n <? 0xC2)%N then None
  else if (n <? 0xE0)%N then Some (2, (0x80, 0xBF)%N)
  else if (n =? 0xE0)%N then Some (3, (0xA0, 0xBF)%N)
  else if (n <? 0xED)%N then Some (3, (0x80, 0xBF)%N)
  else if (n =? 0xED)%N then Some (3, (0x80, 0x9F)%N)
  else if (n <? 0xF0)%N then Some (3, (0x80, 0xBF)%N)
  else if (n =? 0xF0)%N then Some (4, (0x90, 0xBF)%N)
  else if (n <? 0xF4)%N then Some (4, (0x80, 0xBF)%N)
  else if (n =? 0xF4)%N then Some (4, (0x80, 0x8F)%N)
  else None.

Definition cont (c : byte) : bool := in_range 0x80 0xBF c.

(** The width [utf8.DecodeRuneInString] reports for the rune at the head of
    a string (0 on the empty string); [utf8.RuneCountInString] advances by
    the same widths. *)
Definition width (s : gostring) : nat :=
  match s with
  | [] => 0
  | c :: t =>
      match first c with
      | None => 1
      | Some (sz, (lo, hi)) =>
          if length s <? sz then 1 else
          match t with
          | s1 :: t1 =>
              if negb (in_range lo hi s1) then 1
              else if sz <=? 2 then 2
              else match t1 with
                   | s2 :: t2 =>
                       if negb (cont s2) then 1
                       else if sz <=? 3 then 3
                       else match t2 with
                            | s3 :: _ => if negb (cont s3) then 1 else 4
                            | [] => 1
                            end
                   | [] => 1
                   end
          | [] => 1
          end
      end
  end.

(** The runes of a string, each as the bytes it occupies. *)
Fixpoint runes_fuel (fuel : nat) (s : gostring) : list gostring :=
  match fuel with
  | 0 => []
  | S fuel' =>
      match s with
      | [] => []
      | _ => take (width s) s :: runes_fuel fuel' (drop (width s) s)
      end
  end.

Definition runes (s : gostring) : list gostring := runes_fuel (length s) s.

Definition RuneCountInString (s : gostring) : nat := length (runes s).

(** [string(rune(v))] for a code point below 0x800. *)
Definition encode_small (v : N) : gostring :=
  if (v <? 0x80)%N then [byte_of v]
  else [byte_of (0xC0 + v / 64); byte_of (0x80 + v mod 64)].

End utf8.

(** The Unicode tables and the code-page decoder are data of Go's libraries,
    not of this repository: the functions that depend on them are taken as
    an interface. Everything the libraries do on ASCII text is written out
    below. *)
Class Unicode := {
  (** [strings.Map(unicode.ToLower, s)] and [strings.Map(unicode.ToUpper, s)] *)
  map_lower : gostring -> gostring;
  map_upper : gostring -> gostring;
  (** [strings.TrimFunc(s, unicode.IsSpace)] and
      [strings.TrimRightFunc(s, unicode.IsSpace)] *)
  trim_func_space : gostring -> gostring;
  trim_right_func_space : gostring -> gostring;
  (** [transform.String(charmap.Windows1251.NewDecoder(), line)],
      [None] when it reports an error *)
  cp1251_decode : gostring -> option gostring
}.

Module strings.
Section WithUnicode.
Context `{Unicode}.

Definition lower_byte (c : byte) : byte :=
  if in_range 65 90 c then byte_of (code c + 32) else c.
Definition upper_byte (c : byte) : byte :=
  if in_range 97 122 c then byte_of (code c - 32) else c.

(** [strings.ToLower]: a byte-wise fast path for ASCII-only strings,
    [Map(unicode.ToLower, s)] otherwise. *)
Definition ToLower (s : gostring) : gostring :=
  if forallb is_ascii s then map lower_byte s else map_lower s.

Definition ToUpper (s : gostring) : gostring :=
  if forallb is_ascii s then map upper_byte s else map_upper s.

(** [asciiSpace]: tab, newline, vertical tab, form feed, carriage return,
    space. *)
Definition asciiSpace (c : byte) : bool :=
  in_range 9 13 c || (code c =? 32)%N.

(** Second loop of [strings.TrimSpace], on the reversed remainder. *)
Fixpoint trim_stop (r : gostring) : gostring :=
  match r with
  | [] => []
  | c :: t =>
      if negb (is_ascii c) then trim_right_func_space (rev r)
      else if asciiSpace c then trim_stop t
      else rev r
  end.

Fixpoint TrimSpace (s : gostring) : gostring :=
  match s with
  | [] => []
  | c :: t =>
      if negb (is_ascii c) then trim_func_space s
      else if asciiSpace c then TrimSpace t
      else trim_stop (rev s)
  end.

Fixpoint HasPrefix (s prefix : gostring) : bool :=
  match prefix, s with
  | [], _ => true
  | p :: prefix', c :: s' => bool_decide (c = p) && HasPrefix s' prefix'
  | _ :: _, [] => false
  end.

(** [strings.Contains(s, sep)], [strings.Split(s, sep)] and
    [strings.SplitN(s, sep, 2)] for a separator of one byte, which is how
    the program calls them. *)
Definition Contains (s : gostring) (sep : byte) : bool :=
  existsb (fun c => bool_decide (c = sep)) s.

Fixpoint Split (s : gostring) (sep : byte) : list gostring :=
  match s with
  | [] => [[]]
  | c :: t =>
      if bool_decide (c = sep) then [] :: Split t sep
      else match Split t sep with
           | h :: r => (c :: h) :: r
           | [] => [[c]]
           end
  end.

Fixpoint SplitN2 (s : gostring) (sep : byte) : list gostring :=
  match s with
  | [] => [[]]
  | c :: t =>
      if bool_decide (c = sep) then [[]; t]
      else match SplitN2 t sep with
           | h :: r => (c :: h) :: r
           | [] => [[c]]
           end
  end.

(** [strings.Join(elems, "")] *)
Definition Join (elems : list gostring) : gostring := concat elems.

End WithUnicode.
End strings.

Module strconv.

Definition maxUint64 : Z := 2 ^ 64 - 1.
Definition maxInt : Z := 2 ^ 63 - 1.
Definition minInt : Z := - 2 ^ 63.

Inductive num_error := NoError | ErrSyntax | ErrRange.

(** The digit loop of [strconv.ParseUint(s, 10, 64)]: it stops with a
    syntax error at the first byte that is not a decimal digit, and with
    a range error as soon as the value passes [maxUint64]. *)
Fixpoint parse_digits (n : Z) (s : gostring) : Z * num_error :=
  match s with
  | [] => (n, NoError)
  | c :: t =>
      if is_digit c then
        let n1 := (n * 10 + (Z.of_N (code c) - 48))%Z in
        if (n1 >? maxUint64)%Z then (maxUint64, ErrRange)
        else parse_digits n1 t
      else (0%Z, ErrSyntax)
  end.

Definition ParseUint (s : gostring) : Z * num_error :=
  match s with
  | [] => (0%Z, ErrSyntax)
  | _ => parse_digits 0 s
  end.

(** [strconv.ParseInt(s, 10, 0)] on a 64-bit platform. *)
Definition ParseInt (s : gostring) : Z * num_error :=
  match s with
  | [] => (0%Z, ErrSyntax)
  | c :: t =>
      let neg := bool_decide (c = "-"%byte) in
      let s' := if bool_decide (c = "+"%byte) || neg then t else s in
      match ParseUint s' with
      | (_, ErrSyntax) => (0%Z, ErrSyntax)
      | (un, _) =>
          if negb neg && (un >=? 2 ^ 63)%Z then (maxInt, ErrRange)
          else if neg && (un >? 2 ^ 63)%Z then (minInt, ErrRange)
          else (if neg then (- un)%Z else un, NoError)
      end
  end.

(** [strconv.Atoi]: its fast path for short strings computes the same
    value as [ParseInt], which it calls otherwise. *)
Definition Atoi (s : gostring) : Z * num_error := ParseInt s.

(** [strconv.Itoa]: the decimal digits, after a minus sign for a negative
    number. *)
Definition Itoa (z : Z) : gostring :=
  list_byte_of_string (NilZero.string_of_int (Z.to_int z)).

End strconv.

Module regexp.

(** [parse.FindAllStringSubmatch(s, -1)] for [parse = (\d?)(\D?)]: the
    submatches (digit, letter) of the successive matches. A match takes a
    decimal digit when there is one, then one rune that is not a digit
    when there is one. The empty match at the end of a non-empty string
    abuts the previous match and is dropped; the empty string has one
    empty match. *)
Fixpoint tokens (fuel : nat) (s : gostring) : list (gostring * gostring) :=
  match fuel with
  | 0 => []
  | S fuel' =>
      match s with
      | [] => []
      | c :: t =>
          if is_digit c then
            match t with
            | [] => [([c], [])]
            | d :: _ =>
                if is_digit d then ([c], []) :: tokens fuel' t
                else ([c], take (utf8.width t) t)
                       :: tokens fuel' (drop (utf8.width t) t)
            end
          else ([], take (utf8.width s) s)
                 :: tokens fuel' (drop (utf8.width s) s)
      end
  end.

Definition FindAllStringSubmatch (s : gostring) : list (gostring * gostring) :=
  match s with
  | [] => [([], [])]
  | _ => tokens (length s) s
  end.

Definition is_hex (c : byte) : bool :=
  is_digit c || in_range 97 102 c || in_range 65 70 c.

Definition hex_value (c : byte) : N :=
  if is_digit c then code c - 48
  else if in_range 97 102 c then code c - 87
  else code c - 55.

(** [parseHex.ReplaceAllStringFunc] with the program's callback: every
    leftmost, non-overlapping [^^hh] becomes [string(rune(0xhh))]. *)
Fixpoint replace_hex (s : gostring) : gostring :=
  match s with
  | [] => []
  | c :: t =>
      match t with
      | c2 :: h1 :: h2 :: t' =>
          if bool_decide (c = "^"%byte) && bool_decide (c2 = "^"%byte)
             && is_hex h1 && is_hex h2
          then utf8.encode_small (16 * hex_value h1 + hex_value h2)
                 ++ replace_hex t'
          else c :: replace_hex t
      | _ => c :: replace_hex t
      end
  end.

End regexp.

(** ** The data of the program *)

(** [hyphDataInt]: an int with associated data; [data] is a slice and may
    be nil. *)
Record hyphDataInt := { value : Z; data : option (list gostring) }.

(** An [interface{}] of the program holds nothing, an [int] or a
    [hyphDataInt]. *)
Inductive iface :=
  | INil
  | IInt (v : Z)
  | IData (h : hyphDataInt).

Record AlternativeParser := { change : gostring; index : Z; cut : Z }.

(** The anonymous struct stored in [HyphDict.patterns]. *)
Record entry := { start : nat; values : list iface }.

Record HyphDict := {
  patterns : gmap gostring entry;
  cache : gmap gostring (list hyphDataInt);
  maxlen : nat
}.

#[global] Instance hyphDataInt_eq_dec : EqDecision hyphDataInt.
Proof. solve_decision. Defined.
#[global] Instance iface_eq_dec : EqDecision iface.
Proof. solve_decision. Defined.

(** Go's [int] arithmetic on a 64-bit platform. *)
Definition wrap (z : Z) : Z := ((z + 2 ^ 63) mod 2 ^ 64 - 2 ^ 63)%Z.

(** [s[i]] on a slice. *)
Definition at_index {A} (l : list A) (i : nat) : result A :=
  match l !! i with
  | Some a => Ok a
  | None => Panic
  end.

(** [s[lo:hi]] on a slice or a string. *)
Definition slice {A} (l : list A) (lo hi : nat) : result (list A) :=
  if (lo <=? hi) && (hi <=? length l) then Ok (take (hi - lo) (drop lo l))
  else Panic.

Definition atoi (s : gostring) : Z := fst (strconv.Atoi s).

(** ** The exception-clause parser *)

Section Program.
Context `{Unicode}.

Definition newAlternativeParser (pattern alternative : gostring)
  : result AlternativeParser :=
  let parts := strings.Split alternative ","%byte in
  p0 <-- at_index parts 0 ;;
  p1 <-- at_index parts 1 ;;
  p2 <-- at_index parts 2 ;;
  let p := {| change := p0; index := atoi p1; cut := atoi p2 |} in
  Ok (if strings.HasPrefix pattern (str ".")
      then {| change := change p; index := wrap (index p + 1); cut := cut p |}
      else p).

(** [Parse] mutates the parser through its pointer receiver: the parser
    after the call is returned with the result. *)
Definition Parse (p : AlternativeParser) (v : Z) : AlternativeParser * iface :=
  let p' := {| change := change p; index := wrap (index p - 1); cut := cut p |} in
  (p', if (Z.land v 1 =? 1)%Z
       then IData {| value := v;
                     data := Some [change p'; strconv.Itoa (index p');
                                   strconv.Itoa (cut p')] |}
       else IInt v).

(** ** The dictionary loader *)

Definition ignored : list gostring :=
  map str ["%"; "#"; "LEFTHYPHENMIN"; "RIGHTHYPHENMIN";
           "COMPOUNDLEFTHYPHENMIN"; "COMPOUNDRIGHTHYPHENMIN"]%string.

(** The weight factory of a line: the identity, or the [Parse] method of
    the line's parser with the parser's current state. *)
Definition factory := option AlternativeParser.

Definition apply_factory (f : factory) (v : Z) : factory * iface :=
  match f with
  | None => (None, IInt v)
  | Some ap => let '(ap', r) := Parse ap v in (Some ap', r)
  end.

(** The loop over [matches]: the tags and the values of a pattern. *)
Fixpoint collect (f : factory) (matches : list (gostring * gostring))
  : list gostring * list iface :=
  match matches with
  | [] => ([], [])
  | (i, s) :: rest =>
      let '(f', v) := apply_factory f (atoi i) in
      let '(tags, vals) := collect f' rest in
      (s :: tags, v :: vals)
  end.

(** One iteration of the [hasNonZero] loop. *)
Definition signal (v : iface) : bool :=
  match v with
  | IInt i => (0 <? i)%Z
  | IData _ => true
  | INil => false
  end.

Definition hasNonZero (vals : list iface) : bool := existsb signal vals.

(** The test that lets the two trimming loops go on: the value is the
    [int] 0. *)
Definition is_zero (v : iface) : bool :=
  match v with
  | IInt i => (i =? 0)%Z
  | _ => false
  end.

(** [scan_start (values[start:]) start]: the first trimming loop;
    it indexes [values[start]] and panics when it runs off the slice. *)
Fixpoint scan_start (rest : list iface) (start : nat) : result nat :=
  match rest with
  | [] => Panic
  | v :: rest' => if is_zero v then scan_start rest' (S start) else Ok start
  end.

(** [scan_end (reverse of values[:end]) end]: the second trimming loop,
    which indexes [values[end-1]]. *)
Fixpoint scan_end (before : list iface) (end_ : nat) : result nat :=
  match before with
  | [] => Panic
  | v :: before' => if is_zero v then scan_end before' (end_ - 1) else Ok end_
  end.

Definition loader_state : Type := gmap gostring entry * nat.

(** Lines 214-255: what the loader does with the tags and values of a
    pattern. *)
Definition store (st : loader_state) (tags : list gostring) (vals : list iface)
  : result loader_state :=
  if negb (hasNonZero vals) then Ok st else
  start <-- scan_start vals 0 ;;
  end_ <-- scan_end (rev vals) (length vals) ;;
  trimmed <-- slice vals start end_ ;;
  Ok (<[strings.Join tags := {| start := start; values := trimmed |}]> (fst st),
      Nat.max (snd st) (length tags)).

(** Lines 193-200: the base pattern and the weight factory of a line. *)
Definition split_alternative (pattern : gostring) : result (gostring * factory) :=
  if strings.Contains pattern "/"%byte && strings.Contains pattern "="%byte then
    let parts := strings.SplitN2 pattern "/"%byte in
    pattern' <-- at_index parts 0 ;;
    alternative <-- at_index parts 1 ;;
    ap <-- newAlternativeParser pattern' alternative ;;
    Ok (pattern', Some ap)
  else Ok (pattern, None).

(** The tags and values of a base pattern under a factory. *)
Definition scan_pattern (pattern : gostring) (f : factory)
  : list gostring * list iface :=
  collect f (regexp.FindAllStringSubmatch pattern).

(** The body of the loop over the lines of the dictionary; [None] when the
    line is skipped as blank or ignored. *)
Definition effective (line : gostring) : option gostring :=
  let pattern := strings.TrimSpace line in
  if bool_decide (pattern = []) then None
  else if existsb (strings.HasPrefix pattern) ignored then None
  else Some (regexp.replace_hex pattern).

Definition load_line (st : loader_state) (line : gostring) : result loader_state :=
  match effective line with
  | None => Ok st
  | Some pattern =>
      pf <-- split_alternative pattern ;;
      let '(tags, vals) := scan_pattern (fst pf) (snd pf) in
      store st tags vals
  end.

(** [NewHyphDict]: [file] is the content found under the path, [None]
    when opening or reading it fails. *)
Definition NewHyphDict (file : option gostring) : result HyphDict :=
  match file with
  | None => Err
  | Some data =>
      let lines := strings.Split data "010"%byte in
      if length lines <? 2 then Err else
      let encoding := strings.ToLower (strings.TrimSpace (hd [] lines)) in
      let lines :=
        if bool_decide (encoding = str "microsoft-cp1251")
        then hd [] lines :: map (fun line => default line (cp1251_decode line))
                                (tl lines)
        else lines in
      st <-- foldM load_line (∅, 0) (tl lines) ;;
      Ok {| patterns := fst st; cache := ∅; maxlen := snd st |}
  end.

(** ** The position engine *)

Definition byteIndex (s : gostring) (runeIndex : nat) : result nat :=
  tail_ <-- slice s runeIndex (length s) ;;
  Ok (length s - length tail_).

(** The number a slot or a weight counts for in the comparison. *)
Definition numeric (r : iface) : Z :=
  match r with
  | IInt c => c
  | IData h => value h
  | INil => 0%Z
  end.

Definition data_of (v : iface) : option (list gostring) :=
  match v with
  | IData h => data h
  | _ => None
  end.

(** Lines 282-307: one weight of a matched pattern against its slot. *)
Definition merge (references : list iface) (idx : nat) (v : iface)
  : result (list iface) :=
  cur <-- at_index references idx ;;
  let current := numeric cur in
  let patternVal := numeric v in
  if (patternVal >? current)%Z then
    Ok (<[idx := match data_of v with
                 | Some d => IData {| value := patternVal; data := Some d |}
                 | None => IInt patternVal
                 end]> references)
  else Ok references.

(** The loop over the values of a matched pattern; [idx] is
    [i + offset + k]. *)
Fixpoint merge_values (references : list iface) (idx : nat) (vals : list iface)
  : result (list iface) :=
  match vals with
  | [] => Ok references
  | v :: vals' =>
      references' <-- merge references idx v ;;
      merge_values references' (S idx) vals'
  end.

(** The substring the scan looks up for the window [i, j). *)
Definition subWord (pointedWord : gostring) (i j : nat) : result gostring :=
  lo <-- byteIndex pointedWord i ;;
  hi <-- byteIndex pointedWord j ;;
  slice pointedWord lo hi.

(** The body of the loop over [j]. *)
Definition window (pats : gmap gostring entry) (pointedWord : gostring)
    (references : list iface) (ij : nat * nat) : result (list iface) :=
  sub <-- subWord pointedWord (fst ij) (snd ij) ;;
  match pats !! sub with
  | None => Ok references
  | Some pattern =>
      merge_values references (fst ij + start pattern) (values pattern)
  end.

(** The pairs (i, j) the two loops go through, in order, for a padded
    word of [n] runes. *)
Definition windows (maxlen n : nat) : list (nat * nat) :=
  flat_map (fun i =>
              let stop := Nat.min (i + maxlen) n + 1 in
              map (fun j => (i, j)) (seq (i + 1) (stop - (i + 1))))
           (seq 0 (n - 1)).

(** One iteration of the loop that collects the points. *)
Definition point (i : nat) (ref : iface) : list hyphDataInt :=
  match ref with
  | IInt val =>
      if negb (Z.rem val 2 =? 0)%Z
      then [{| value := Z.of_nat i - 1; data := None |}] else []
  | IData hdi =>
      if negb (Z.rem (value hdi) 2 =? 0)%Z
      then [{| value := Z.of_nat i - 1; data := data hdi |}] else []
  | INil => []
  end.

Definition collect_points (references : list iface) : list hyphDataInt :=
  concat (imap point references).

Definition pointed (word : gostring) : gostring := str "." ++ word ++ str ".".

(** The accumulator after the scan of an already lowercased word. *)
Definition scan (pats : gmap gostring entry) (maxlen : nat) (word : gostring)
  : result (list iface) :=
  let pointedWord := pointed word in
  let n := utf8.RuneCountInString pointedWord in
  foldM (window pats pointedWord) (replicate (n + 1) INil) (windows maxlen n).

(** [Positions] reads and writes the cache of the dictionary: the
    dictionary after the call is returned with the points. *)
Definition Positions (hd : HyphDict) (word : gostring)
  : result (list hyphDataInt * HyphDict) :=
  let word := strings.ToLower word in
  match cache hd !! word with
  | Some points => Ok (points, hd)
  | None =>
      references <-- scan (patterns hd) (maxlen hd) word ;;
      let points := collect_points references in
      Ok (points, {| patterns := patterns hd;
                     cache := <[word := points]> (cache hd);
                     maxlen := maxlen hd |})
  end.

End Program.

(** What the loop over a fresh word computes, apart from the cache. *)
Definition fresh_points (hd : HyphDict) (word : gostring)
  : result (list hyphDataInt) :=
  references <-- scan (patterns hd) (maxlen hd) word ;;
  Ok (collect_points references).

Definition rmap {A B} (f : A -> B) (r : result A) : result B :=
  a <-- r ;; Ok (f a).

(** The dictionaries a program can hold: built by [NewHyphDict], then used
    through [Positions] (the fields are not exported). *)
Inductive reachable `{Unicode} : HyphDict -> Prop :=
  | reach_new file hd :
      NewHyphDict file = Ok hd -> reachable hd
  | reach_positions hd word points hd' :
      reachable hd -> Positions hd word = Ok (points, hd') -> reachable hd'.

(** ** Concrete text

    An instance of the library interface for text whose non-ASCII bytes are
    neither cased letters nor Unicode spaces: Go returns such text
    unchanged. *)
Definition caseless_text : Unicode :=
  {| map_lower := id; map_upper := id; trim_func_space := id;
     trim_right_func_space := id; cp1251_decode := Some |}.

(** A dictionary file from its lines. *)
Definition file_of (l : list string) : option gostring :=
  Some (concat (map (fun s => str s ++ ["010"%byte]) l)).

(** [Positions] on a dictionary freshly loaded from a file. *)
Definition load_and_hyphenate `{Unicode} (file : option gostring) (word : gostring)
  : result (list hyphDataInt) :=
  hd <-- NewHyphDict file ;; rmap fst (Positions hd word).

(** ** Notions used in the statements *)

Section Notions.
Context `{Unicode}.

(** What an invocation returns for the weight [v] when it leaves the
    counter at [counter]. *)
Definition tag_weight (change_ : gostring) (counter cut_ v : Z) : iface :=
  if Z.odd v
  then IData {| value := v;
                data := Some [change_; strconv.Itoa counter; strconv.Itoa cut_] |}
  else IInt v.

(** The number in the slot [g] of an accumulator or of a weight sequence
    (0 where there is none). *)
Definition slot (r : list iface) (g : nat) : Z := numeric (default INil (r !! g)).

(** Every cached entry is what the scan computes for its key. *)
Definition cache_ok (hd : HyphDict) : Prop :=
  forall word points, cache hd !! word = Some points ->
                      fresh_points hd word = Ok points.

(** A word is case-foldable when lowercasing it again, or lowercasing its
    uppercase form, gives its lowercase form. *)
Definition case_foldable (word : gostring) : Prop :=
  strings.ToLower (strings.ToLower word) = strings.ToLower word /\
  strings.ToLower (strings.ToUpper word) = strings.ToLower word.

(** A string that is exactly one rune, as a match of [\D] is. *)
Definition one_rune (u : gostring) : Prop :=
  u <> [] /\ utf8.width u = length u.

(** A tag of a pattern: nothing, or one rune. *)
Definition letter (u : gostring) : Prop := u = [] \/ one_rune u.

(** The weights the loader computes for a line ([[]] for a line it
    skips). *)
Definition line_weights (line : gostring) : result (list iface) :=
  match effective line with
  | None => Ok []
  | Some pattern =>
      pf <-- split_alternative pattern ;;
      Ok (snd (scan_pattern (fst pf) (snd pf)))
  end.

(** What a factory can return: an [int], or a [hyphDataInt] with an odd
    value. *)
Definition weight_wf (v : iface) : Prop :=
  match v with
  | IInt _ => True
  | IData h => Z.odd (value h) = true
  | INil => False
  end.

(** A stored entry: its weights start and end with a weight that is not
    zero. *)
Definition entry_good (e : entry) : Prop :=
  exists v v', head (values e) = Some v /\ last (values e) = Some v' /\
               numeric v <> 0%Z /\ numeric v' <> 0%Z.

(** The lines of a dictionary file the loop goes through: those after the
    first, decoded when the first names the code page. *)
Definition pattern_lines (data : gostring) : list gostring :=
  let lines := strings.Split data "010"%byte in
  let encoding := strings.ToLower (strings.TrimSpace (hd [] lines)) in
  if bool_decide (encoding = str "microsoft-cp1251")
  then map (fun line => default line (cp1251_decode line)) (tl lines)
  else tl lines.

(** The number of tokens [len(tags)] of a line that reaches the update of
    [maxlen]; [None] for a line that is skipped, discarded as all-zero or
    stopped by a panic. *)
Definition stored_tokens (line : gostring) : option nat :=
  match effective line with
  | None => None
  | Some pattern =>
      match split_alternative pattern with
      | Ok pf =>
          let '(tags, vals) := scan_pattern (fst pf) (snd pf) in
          if hasNonZero vals then Some (length tags) else None
      | _ => None
      end
  end.


(** The invariant of the loop over the lines. *)
Definition loader_inv (st : loader_state) : Prop :=
  forall key e, fst st !! key = Some e ->
                utf8.RuneCountInString key <= snd st /\ entry_good e.

End Notions.

(** The dictionary loaded from a file of plain text (the empty dictionary
    when loading fails). *)
Definition loaded (file : option gostring) : HyphDict :=
  match @NewHyphDict caseless_text file with
  | Ok hd => hd
  | _ => {| patterns := ∅; cache := ∅; maxlen := 0 |}
  end.


(** The code points [i .. j-1] of a string, in the words of the
    specification. *)
Definition code_points (s : gostring) (i j : nat) : gostring :=
  concat (take (j - i) (drop i (utf8.runes s))).

(** The text of a dictionary with the patterns [a1] and [.hy3p]. *)
Definition data_a1_hyp : gostring :=
  str "UTF-8" ++ ["010"%byte] ++ str "a1" ++ ["010"%byte] ++ str ".hy3p".

(** A dictionary file with the one pattern [é1a], and the word [éa]. *)
Definition file_e_acute : option gostring :=
  Some (str "UTF-8" ++ ["010"%byte] ++ [xc3; xa9] ++ str "1a" ++ ["010"%byte]).
Definition word_e_acute : gostring := [xc3; xa9] ++ str "a".

(** ** The language registry

    [LANGUAGES] and [languagesLowercase] are package variables, filled once
    by [init]: they are the two fields of a registry. The listing of the
    embedded directory is an input ([None] when [fs.ReadDir] fails). *)

Record registry := {
  LANGUAGES : gmap gostring gostring;
  languagesLowercase : gmap gostring gostring
}.

(** [strings.HasSuffix] *)
Definition HasSuffix (s suffix : gostring) : bool :=
  (length suffix <=? length s)
  && bool_decide (drop (length s - length suffix) s = suffix).

(** [strings.ReplaceAll(s, old, new)] for [old] and [new] of one byte. *)
Definition ReplaceAll (s : gostring) (old new : byte) : gostring :=
  map (fun c => if bool_decide (c = old) then new else c) s.

(** [strings.Join(elems, sep)] for a separator of one byte. *)
Fixpoint JoinSep (elems : list gostring) (sep : byte) : gostring :=
  match elems with
  | [] => []
  | [e] => e
  | e :: rest => e ++ sep :: JoinSep rest sep
  end.

(** Go's [<] on strings: the order of the bytes. *)
Fixpoint string_lt (a b : gostring) : bool :=
  match a, b with
  | _, [] => false
  | [], _ :: _ => true
  | x :: a', y :: b' =>
      (code x <? code y)%N || ((code x =? code y)%N && string_lt a' b')
  end.

(** [sort.Slice] by name. Entries that compare equal have the same name, so
    every sorting procedure gives the same list of names. *)
Fixpoint insert_name (x : gostring) (l : list gostring) : list gostring :=
  match l with
  | [] => [x]
  | y :: l' => if string_lt x y then x :: l else y :: insert_name x l'
  end.

Definition sort_names (l : list gostring) : list gostring :=
  foldr insert_name [] l.

(** Lines 46-49: the short name and the path a directory entry stands for;
    [None] for an entry that is not a [.dic] file. *)
Definition language_of (entryName : gostring) : result (option (gostring * gostring)) :=
  if HasSuffix entryName (str ".dic") then
    name <-- slice entryName 5 (length entryName - 4) ;;
    let path := str "dictionaries/" ++ name ++ str ".txt" in
    shortName <-- at_index (strings.Split name "_"%byte) 0 ;;
    Ok (Some (shortName, path))
  else Ok None.

(** The body of the loop over the directory entries. *)
Definition register (langs : gmap gostring gostring) (entryName : gostring)
  : result (gmap gostring gostring) :=
  l <-- language_of entryName ;;
  match l with
  | None => Ok langs
  | Some (shortName, path) =>
      match langs !! shortName with
      | Some _ => Ok langs
      | None => Ok (<[shortName := path]> langs)
      end
  end.

Section Registry.
Context `{Unicode}.

(** Go does not fix the order in which [range] goes through a map:
    the order is a parameter. *)
Variable range_keys : gmap gostring gostring -> list gostring.

(** The second loop of [populateLanguages], over the names in [order]. *)
Definition index_lowercase (low : gmap gostring gostring) (order : list gostring)
  : gmap gostring gostring :=
  foldl (fun m name => <[strings.ToLower name := name]> m) low order.

Definition populateLanguages (dir : option (list gostring)) (r : registry)
  : result registry :=
  match dir with
  | None => Err
  | Some dirEntries =>
      langs <-- foldM register (LANGUAGES r) (sort_names dirEntries) ;;
      Ok {| LANGUAGES := langs;
            languagesLowercase :=
              index_lowercase (languagesLowercase r) (range_keys langs) |}
  end.

(** [init]: both maps start empty, and an error of [populateLanguages]
    becomes a panic. *)
Definition init (dir : option (list gostring)) : result registry :=
  match populateLanguages dir {| LANGUAGES := ∅; languagesLowercase := ∅ |} with
  | Ok r => Ok r
  | _ => Panic
  end.

(** The loop of [LanguageFallback]: [n] is [len(parts)] at the head of the
    loop, the slice being [parts[:n]]. *)
Fixpoint fallback (low : gmap gostring gostring) (parts : list gostring) (n : nat)
  : gostring :=
  match n with
  | 0 => []
  | S n' =>
      match low !! JoinSep (take n parts) "_"%byte with
      | Some name => name
      | None => fallback low parts n'
      end
  end.

(** The tag as [LanguageFallback] looks it up: lowercased, with
    underscores for dashes. *)
Definition normalize (language : gostring) : gostring :=
  ReplaceAll (strings.ToLower language) "-"%byte "_"%byte.

Definition LanguageFallback (r : registry) (language : gostring) : gostring :=
  let parts := strings.Split (normalize language) "_"%byte in
  fallback (languagesLowercase r) parts (length parts).

End Registry.

(** The order in which this development goes through a map, for the
    examples. *)
Definition keys_in_order (m : gmap gostring gostring) : list gostring :=
  (map_to_list m).*1.

(** The path the first loop of [populateLanguages] keeps for a short name
    when it goes through the entries [l] in this order with a map that
    does not hold the name yet. *)
Fixpoint first_language (l : list gostring) (short : gostring) : option gostring :=
  match l with
  | [] => None
  | e :: l' =>
      match language_of e with
      | Ok (Some (s, p)) =>
          if bool_decide (s = short) then Some p else first_language l' short
      | _ => first_language l' short
      end
  end.

(** The registry after [init] on a listing of the directory, on concrete
    text. *)
Definition registered (names : list string) : registry :=
  match @init caseless_text keys_in_order (Some (map str names)) with
  | Ok r => r
  | _ => {| LANGUAGES := ∅; languagesLowercase := ∅ |}
  end.

(** ** Notions used in the further properties *)

(** Every entry has room in the accumulator: its weights, once shifted by
    [start], cover at most one slot more than its key has bytes. *)
Definition fits (pats : gmap gostring entry) : Prop :=
  forall key e, pats !! key = Some e ->
                start e + length (values e) <= length key + 1.

(** Two decimal digits in a row somewhere in a string. *)
Fixpoint digit_pair (s : gostring) : bool :=
  match s with
  | c :: t =>
      match t with
      | d :: _ => (is_digit c && is_digit d) || digit_pair t
      | [] => false
      end
  | [] => false
  end.

(** A weight with exception data carries exactly three strings. *)
Definition three_fields (v : iface) : Prop :=
  match v with
  | IData h => exists a b c, data h = Some [a; b; c]
  | _ => True
  end.

(** A weight as a pattern line can give it: a number from 0 to 9. *)
Definition one_digit (v : iface) : Prop := (0 <= numeric v <= 9)%Z.

(** A line with a clause of fewer than three fields after its first
    slash. *)
Definition short_clause `{Unicode} (line : gostring) : bool :=
  match effective line with
  | None => false
  | Some pattern =>
      strings.Contains pattern "/"%byte && strings.Contains pattern "="%byte
      && (length (strings.Split (default [] (strings.SplitN2 pattern "/"%byte !! 1))
                    ","%byte) <? 3)
  end.

(** The base pattern of a line: what comes before the first slash when
    the line has a clause, the whole effective line otherwise. *)
Definition base_pattern `{Unicode} (line : gostring) : option gostring :=
  match effective line with
  | None => None
  | Some pattern =>
      if strings.Contains pattern "/"%byte && strings.Contains pattern "="%byte
      then strings.SplitN2 pattern "/"%byte !! 0
      else Some pattern
  end.

(** What a line stores under a key: the key is made of its tags, and its
    weights are those of the entry between [start] zeros on the left and
    some zeros on the right. *)
Definition produces `{Unicode} (line key : gostring) (e : entry) : Prop :=
  exists pattern pf k,
    effective line = Some pattern /\
    split_alternative pattern = Ok pf /\
    key = strings.Join (fst (scan_pattern (fst pf) (snd pf))) /\
    snd (scan_pattern (fst pf) (snd pf))
      = replicate (start e) (IInt 0) ++ values e ++ replicate k (IInt 0) /\
    values e <> [].

Definition nondigit (c : byte) : bool := negb (is_digit c).

(** ** Properties of the library functions *)

Lemma wrap_id z : (strconv.minInt <= z <= strconv.maxInt)%Z -> wrap z = z.
Proof.
  unfold wrap, strconv.minInt, strconv.maxInt. intros Hz.
  rewrite Z.mod_small; lia.
Qed.

Lemma wrap_wrap_sub z y : wrap (wrap z - y) = wrap (z - y).
Proof.
  unfold wrap.
  replace ((z + 2 ^ 63) mod 2 ^ 64 - 2 ^ 63 - y + 2 ^ 63)%Z
    with ((z + 2 ^ 63) mod 2 ^ 64 - y)%Z by lia.
  rewrite Zminus_mod_idemp_l.
  replace (z + 2 ^ 63 - y)%Z with (z - y + 2 ^ 63)%Z by lia.
  reflexivity.
Qed.

Lemma land_one_odd v : (Z.land v 1 =? 1)%Z = Z.odd v.
Proof.
  change 1%Z with (Z.ones 1) at 1. rewrite Z.land_ones by lia.
  rewrite Zmod_odd. destruct (Z.odd v); reflexivity.
Qed.

Lemma rem_two_odd v : negb (Z.rem v 2 =? 0)%Z = Z.odd v.
Proof.
  rewrite <- Z.negb_even. f_equal.
  destruct (Z.rem v 2 =? 0)%Z eqn:E.
  - apply Z.eqb_eq in E. symmetry. apply Z.even_spec.
    exists (Z.quot v 2). rewrite (Z.quot_rem' v 2) at 1. lia.
  - apply Z.eqb_neq in E. symmetry. apply not_true_is_false. intros Hev.
    apply Z.even_spec in Hev as [k ->]. apply E.
    rewrite Z.mul_comm. apply Z.rem_mul. lia.
Qed.

(** ** The merge of a weight into the accumulator *)

Section Merge.

Lemma merge_length (references references' : list iface) idx v :
  merge references idx v = Ok references' ->
  length references' = length references.
Proof.
  unfold merge, at_index. destruct (references !! idx); simpl; [|discriminate].
  destruct (_ >? _)%Z; intros [= <-]; [apply length_insert | reflexivity].
Qed.

Lemma merge_values_length vals : forall (references references' : list iface) idx,
  merge_values references idx vals = Ok references' ->
  length references' = length references.
Proof.
  induction vals as [|v vals IH]; simpl; intros references references' idx.
  - intros [= <-]. reflexivity.
  - destruct (merge references idx v) as [r| |] eqn:E; simpl; try discriminate.
    intros Hm. rewrite (IH _ _ _ Hm). eapply merge_length, E.
Qed.

Lemma merge_other (references references' : list iface) idx v g :
  merge references idx v = Ok references' -> g <> idx ->
  references' !! g = references !! g.
Proof.
  unfold merge, at_index. destruct (references !! idx); simpl; [|discriminate].
  destruct (_ >? _)%Z; intros [= <-] Hg; [|reflexivity].
  apply list_lookup_insert_ne. congruence.
Qed.

Lemma merge_slot (references references' : list iface) idx v :
  merge references idx v = Ok references' ->
  slot references' idx = Z.max (slot references idx) (numeric v).
Proof.
  unfold merge, at_index, slot.
  destruct (references !! idx) as [cur|] eqn:Hcur; simpl; [|discriminate].
  pose proof (lookup_lt_Some _ _ _ Hcur) as Hlt.
  destruct (Z.gtb_spec (numeric v) (numeric cur)); intros [= <-].
  - rewrite list_lookup_insert_eq by exact Hlt. simpl.
    destruct (data_of v); simpl; lia.
  - rewrite Hcur. simpl. lia.
Qed.

(** A matched pattern leaves in every slot it covers the larger of the
    slot and its weight for that slot, and the other slots as they were. *)
Lemma merge_values_max vals : forall (references references' : list iface) idx g,
  merge_values references idx vals = Ok references' ->
  slot references' g =
    if decide (idx <= g < idx + length vals)
    then Z.max (slot references g) (slot vals (g - idx))
    else slot references g.
Proof.
  induction vals as [|v vals IH]; intros references references' idx g; cbn [merge_values].
  - intros [= <-]. destruct (decide _) as [Hg|]; [simpl in Hg; lia | reflexivity].
  - destruct (merge references idx v) as [r1| |] eqn:Hm; cbn [rbind]; try discriminate.
    intros Hrest. rewrite (IH _ _ _ g Hrest). cbn [length].
    destruct (decide (g = idx)) as [->|Hne].
    + rewrite (merge_slot _ _ _ _ Hm).
      destruct (decide (S idx <= idx < _)) as [Hg|_]; [lia|].
      destruct (decide (idx <= idx < _)) as [_|Hg]; [|lia].
      rewrite Nat.sub_diag. reflexivity.
    + unfold slot at 1 3. rewrite (merge_other _ _ _ _ _ Hm Hne).
      fold (slot references g).
      destruct (decide (S idx <= g < _)) as [Hg|Hg];
        destruct (decide (idx <= g < _)) as [Hg'|Hg']; try lia; try reflexivity.
      replace (g - idx) with (S (g - S idx)) by lia. reflexivity.
Qed.

(** C2. The merge is a strict max-merge: when the slot [idx] exists, the
    merge succeeds, touches no other slot, leaves the slot with the larger
    of the two numbers (not their sum), takes the new weight with its
    exception data exactly when its number is strictly greater, and
    leaves the whole accumulator as it was otherwise (so an equal weight
    does not overwrite); the weights 1 and 2 on one slot give 2 in either
    order. The same holds slot by slot for all the weights of a matched
    pattern. *)
Theorem merge_strict_max (references : list iface) (idx : nat) (v cur : iface) :
  references !! idx = Some cur ->
  exists references' new,
    merge references idx v = Ok references' /\
    length references' = length references /\
    (forall g, g <> idx -> references' !! g = references !! g) /\
    references' !! idx = Some new /\
    numeric new = Z.max (numeric cur) (numeric v) /\
    ((numeric cur < numeric v)%Z ->
       numeric new = numeric v /\ data_of new = data_of v) /\
    ((numeric v <= numeric cur)%Z -> references' = references) /\
    (numeric cur = 1%Z -> numeric v = 2%Z -> numeric new = 2%Z) /\
    (numeric cur = 2%Z -> numeric v = 1%Z -> numeric new = 2%Z) /\
    (forall vals start_ after g,
       merge_values references start_ vals = Ok after ->
       slot after g =
         if decide (start_ <= g < start_ + length vals)
         then Z.max (slot references g) (slot vals (g - start_))
         else slot references g).
Proof.
  intros Hcur. pose proof (lookup_lt_Some _ _ _ Hcur) as Hlt.
  assert (Hvals : forall vals start_ after g,
             merge_values references start_ vals = Ok after ->
             slot after g =
               if decide (start_ <= g < start_ + length vals)
               then Z.max (slot references g) (slot vals (g - start_))
               else slot references g)
    by (intros; apply merge_values_max; assumption).
  unfold merge, at_index. rewrite Hcur. simpl.
  destruct (numeric v >? numeric cur)%Z eqn:E.
  - apply Z.gtb_lt in E.
    eexists _, _. split; [reflexivity|].
    split; [apply length_insert|].
    split; [intros g Hg; apply list_lookup_insert_ne; congruence|].
    split; [apply list_lookup_insert_eq; exact Hlt|].
    assert (Hnew : numeric (match data_of v with
                            | Some d => IData {| value := numeric v; data := Some d |}
                            | None => IInt (numeric v)
                            end) = numeric v)
      by (destruct (data_of v); reflexivity).
    assert (Hdata : data_of (match data_of v with
                             | Some d => IData {| value := numeric v; data := Some d |}
                             | None => IInt (numeric v)
                             end) = data_of v)
      by (destruct (data_of v); reflexivity).
    rewrite Hnew, Hdata. repeat split; try lia; try exact Hvals.
  - assert (numeric v <= numeric cur)%Z as Hle.
    { destruct (Z.gtb_spec (numeric v) (numeric cur)); [discriminate | lia]. }
    exists references, cur. repeat split; try lia; auto.
Qed.

End Merge.

(** Two patterns that put the weights 1 and 2 on the boundary between [a]
    and [b]: the slot ends with 2, so there is no break, where the pattern
    with weight 1 alone gives one. *)
Example overlap_one_two :
  @load_and_hyphenate caseless_text (file_of ["UTF-8"; "a1b"; "2b"]%string) (str "ab") = Ok []
  /\ @load_and_hyphenate caseless_text (file_of ["UTF-8"; "a1b"]%string) (str "ab")
     = Ok [{| value := 1; data := None |}]
  /\ rmap (fun r => r !! 2)
       (hd <-- @NewHyphDict caseless_text (file_of ["UTF-8"; "a1b"; "2b"]%string) ;;
        scan (patterns hd) (maxlen hd) (str "ab"))
     = Ok (Some (IInt 2)).
Proof. repeat split; vm_compute; reflexivity. Qed.

Lemma merge_strict_max_witness :
  exists references',
    merge [INil; IInt 1; INil] 1 (IInt 2) = Ok references' /\
    references' !! 1 = Some (IInt 2).
Proof.
  destruct (merge_strict_max [INil; IInt 1; INil] 1 (IInt 2) (IInt 1) eq_refl)
    as (references' & new & Hm & _ & _ & Hnew & _ & Hgt & _).
  exists references'. split; [exact Hm|].
  vm_compute in Hm. injection Hm as <-. reflexivity.
Defined.

(** ** The exception-clause parser *)

Section Parser.

Lemma Split_no_sep (s : gostring) sep : sep ∉ s -> strings.Split s sep = [s].
Proof.
  induction s as [|c s IH]; simpl; intros Hs; [reflexivity|].
  apply not_elem_of_cons in Hs as [Hc Hs].
  rewrite bool_decide_eq_false_2 by congruence.
  rewrite IH by assumption. reflexivity.
Qed.

Lemma Split_field (s t : gostring) sep :
  sep ∉ s -> strings.Split (s ++ sep :: t) sep = s :: strings.Split t sep.
Proof.
  induction s as [|c s IH]; simpl; intros Hs.
  - rewrite bool_decide_eq_true_2 by reflexivity. reflexivity.
  - apply not_elem_of_cons in Hs as [Hc Hs].
    rewrite bool_decide_eq_false_2 by congruence.
    rewrite IH by assumption. reflexivity.
Qed.

Lemma parse_digits_bounds s : forall n,
  (0 <= n <= strconv.maxUint64)%Z ->
  (0 <= fst (strconv.parse_digits n s) <= strconv.maxUint64)%Z.
Proof.
  induction s as [|c s IH]; simpl; intros n Hn; [exact Hn|].
  destruct (is_digit c) eqn:Hd; simpl; [|unfold strconv.maxUint64; lia].
  destruct (_ >? _)%Z eqn:E; simpl; [unfold strconv.maxUint64; lia|].
  apply IH. unfold is_digit, in_range in Hd.
  apply andb_true_iff in Hd as [H1 H2].
  apply N.leb_le in H1. apply N.leb_le in H2.
  destruct (Z.gtb_spec (n * 10 + (Z.of_N (code c) - 48)) strconv.maxUint64);
    [discriminate | lia].
Qed.

Lemma atoi_range s : (strconv.minInt <= atoi s <= strconv.maxInt)%Z.
Proof.
  unfold atoi, strconv.Atoi, strconv.ParseInt.
  assert (Hz : (strconv.minInt <= 0 <= strconv.maxInt)%Z)
    by (unfold strconv.minInt, strconv.maxInt; lia).
  destruct s as [|c t]; [exact Hz|].
  set (s' := if _ || _ then t else c :: t).
  assert (Hu : (0 <= fst (strconv.ParseUint s') <= strconv.maxUint64)%Z).
  { unfold strconv.ParseUint. destruct s'; simpl.
    - unfold strconv.maxUint64; lia.
    - apply (parse_digits_bounds (_ :: _)). unfold strconv.maxUint64; lia. }
  destruct (strconv.ParseUint s') as [un e]. simpl in Hu.
  destruct e; simpl; try exact Hz;
    destruct (bool_decide (c = "-"%byte)); simpl;
    repeat match goal with
           | |- context [(?a >=? ?b)%Z] => destruct (Z.geb_spec a b); simpl
           | |- context [(?a >? ?b)%Z] => destruct (Z.gtb_spec a b); simpl
           end; unfold strconv.minInt, strconv.maxInt in *; lia.
Qed.

Lemma Parse_spec (q : AlternativeParser) (v : Z) :
  Parse q v =
    ({| change := change q; index := wrap (index q - 1); cut := cut q |},
     tag_weight (change q) (wrap (index q - 1)) (cut q) v).
Proof. unfold Parse, tag_weight. rewrite land_one_odd. reflexivity. Qed.

Lemma collect_parse_nth ms : forall p k i s,
  ms !! k = Some (i, s) ->
  snd (collect (Some p) ms) !! k
    = Some (tag_weight (change p) (wrap (index p - Z.of_nat k - 1)) (cut p) (atoi i)).
Proof.
  induction ms as [|[i0 s0] ms IH]; intros p k i s Hk; [discriminate|].
  cbn [collect apply_factory]. rewrite Parse_spec.
  destruct (collect _ ms) as [tags vals] eqn:E.
  destruct k as [|k].
  - injection Hk as -> ->. cbn [snd]. simpl lookup.
    replace (index p - Z.of_nat 0 - 1)%Z with (index p - 1)%Z by lia.
    reflexivity.
  - change ((i0, s0) :: ms) with ([(i0, s0)] ++ ms) in Hk.
    simpl in Hk.
    specialize (IH {| change := change p; index := wrap (index p - 1);
                      cut := cut p |} k i s Hk).
    rewrite E in IH. cbn [snd change index cut] in IH |- *.
    change ((tag_weight (change p) (wrap (index p - 1)) (cut p) (atoi i0) :: vals)
              !! S k) with (vals !! k).
    rewrite IH. do 2 f_equal.
    replace (wrap (index p - 1) - Z.of_nat k - 1)%Z
      with (wrap (index p - 1) - (Z.of_nat k + 1))%Z by lia.
    rewrite wrap_wrap_sub. f_equal. lia.
Qed.

(** C8. The parser built from a base pattern and a clause
    [change,index,cut] is a stateful weight transform. Its counter starts
    at the numeric value of [index], plus one when the pattern begins
    with a dot. Every invocation first takes one off the counter (in Go's
    [int] arithmetic), then returns an odd weight tagged with the change
    text, the counter as this call left it and the cut count, and an even
    weight unchanged; the [k]-th of the successive calls made for a
    pattern (counting from 0) therefore sees the counter [k + 1] steps
    down. *)
Theorem parser_is_counter (pattern change_ index_ cut_ : gostring) :
  ","%byte ∉ change_ -> ","%byte ∉ index_ -> ","%byte ∉ cut_ ->
  exists p,
    newAlternativeParser pattern (change_ ++ str "," ++ index_ ++ str "," ++ cut_)
      = Ok p /\
    change p = change_ /\ cut p = atoi cut_ /\
    index p = (if strings.HasPrefix pattern (str ".")
               then wrap (atoi index_ + 1) else atoi index_) /\
    (strings.HasPrefix pattern (str ".") = true -> (atoi index_ < strconv.maxInt)%Z ->
       index p = (atoi index_ + 1)%Z) /\
    (forall (q : AlternativeParser) (v : Z),
       let counter := wrap (index q - 1) in
       Parse q v =
         ({| change := change q; index := counter; cut := cut q |},
          if Z.odd v
          then IData {| value := v;
                        data := Some [change q; strconv.Itoa counter;
                                      strconv.Itoa (cut q)] |}
          else IInt v) /\
       ((strconv.minInt < index q <= strconv.maxInt)%Z ->
          counter = (index q - 1)%Z)) /\
    (forall ms k i s, ms !! k = Some (i, s) ->
       snd (collect (Some p) ms) !! k
         = Some (tag_weight (change p) (wrap (index p - Z.of_nat k - 1)) (cut p)
                   (atoi i))).
Proof.
  intros Hc Hi Hcut.
  assert (Hsplit : strings.Split (change_ ++ str "," ++ index_ ++ str "," ++ cut_)
                     ","%byte = [change_; index_; cut_]).
  { change (str ",") with [","%byte]. simpl.
    rewrite Split_field by assumption. rewrite Split_field by assumption.
    rewrite Split_no_sep by assumption. reflexivity. }
  unfold newAlternativeParser. rewrite Hsplit.
  cbn [at_index lookup list_lookup rbind change index cut].
  eexists. split; [reflexivity|].
  assert (Hparse : forall (q : AlternativeParser) (v : Z),
             let counter := wrap (index q - 1) in
             Parse q v =
               ({| change := change q; index := counter; cut := cut q |},
                if Z.odd v
                then IData {| value := v;
                              data := Some [change q; strconv.Itoa counter;
                                            strconv.Itoa (cut q)] |}
                else IInt v) /\
             ((strconv.minInt < index q <= strconv.maxInt)%Z ->
                counter = (index q - 1)%Z)).
  { intros q v counter. split; [apply Parse_spec|].
    intros Hq. apply wrap_id. unfold strconv.minInt, strconv.maxInt in *. lia. }
  pose proof (atoi_range index_) as Hr.
  destruct (strings.HasPrefix pattern (str ".")) eqn:Hp;
    cbn [change index cut];
    (split; [reflexivity|]); (split; [reflexivity|]); (split; [reflexivity|]);
    (split; [|split; [exact Hparse | intros; eapply collect_parse_nth; eassumption]]).
  - intros _ Hlt. apply wrap_id.
    unfold strconv.minInt, strconv.maxInt in *. lia.
  - intros [=].
Qed.

End Parser.

Lemma parser_is_counter_witness :
  exists p,
    newAlternativeParser (str ".a1b") (str "f=f" ++ str "," ++ str "1" ++ str "," ++ str "2")
      = Ok p /\
    change p = str "f=f" /\ cut p = 2%Z /\ index p = 2%Z /\
    snd (Parse p 1)
      = IData {| value := 1; data := Some [str "f=f"; str "1"; str "2"] |} /\
    snd (Parse p 2) = IInt 2.
Proof.
  assert (H1 : ","%byte ∉ str "f=f") by (apply (bool_decide_unpack _); vm_compute; exact I).
  assert (H2 : ","%byte ∉ str "1") by (apply (bool_decide_unpack _); vm_compute; exact I).
  assert (H3 : ","%byte ∉ str "2") by (apply (bool_decide_unpack _); vm_compute; exact I).
  destruct (parser_is_counter (str ".a1b") (str "f=f") (str "1") (str "2") H1 H2 H3)
    as (p & Hp & Hch & Hcut & Hidx & _ & Hparse & _).
  exists p. split; [exact Hp|].
  split; [exact Hch|]. split; [exact Hcut|]. split; [exact Hidx|].
  rewrite (proj1 (Hparse p 1%Z)), (proj1 (Hparse p 2%Z)), Hch, Hcut, Hidx.
  split; vm_compute; reflexivity.
Defined.

(** ** Counting runes *)

Section Runes.

Lemma first_spec c sz lo hi :
  utf8.first c = Some (sz, (lo, hi)) ->
  (sz = 2 \/ sz = 3 \/ sz = 4) /\ (0x80 <= lo)%N /\ (hi <= 0xBF)%N /\
  (0xC2 <= code c)%N.
Proof.
  unfold utf8.first.
  repeat match goal with
         | |- context [(?a <? ?b)%N] => destruct (N.ltb_spec a b)
         | |- context [(?a =? ?b)%N] => destruct (N.eqb_spec a b)
         end; intros [= <- <- <-]; repeat split; auto; lia.
Qed.

Lemma ascii_not_in_range c lo hi :
  is_ascii c = true -> (0x80 <= lo)%N -> in_range lo hi c = false.
Proof.
  unfold is_ascii, in_range. intros Ha Hlo. apply N.ltb_lt in Ha.
  apply andb_false_intro1. apply N.leb_gt. lia.
Qed.

Lemma ascii_first c : is_ascii c = true -> utf8.first c = None.
Proof.
  unfold is_ascii, utf8.first. intros Ha. apply N.ltb_lt in Ha.
  destruct (N.ltb_spec (code c) 194); [reflexivity | lia].
Qed.

Lemma width_bounds s : s <> [] -> 1 <= utf8.width s <= length s.
Proof.
  destruct s as [|c t]; [congruence|]. intros _. unfold utf8.width.
  destruct (utf8.first c) as [[sz [lo hi]]|] eqn:F; [|simpl; lia].
  destruct (first_spec _ _ _ _ F) as ([-> | [-> | ->]] & _).
  all: destruct t as [|s1 [|s2 [|s3 t3]]]; simpl;
    repeat match goal with
           | |- context [if ?b then _ else _] => destruct b; simpl
           end; lia.
Qed.

Lemma width_app_ascii s c :
  s <> [] -> is_ascii c = true -> utf8.width (s ++ [c]) = utf8.width s.
Proof.
  destruct s as [|c0 t]; [congruence|]. intros _ Ha.
  change ((c0 :: t) ++ [c]) with (c0 :: (t ++ [c])). unfold utf8.width.
  destruct (utf8.first c0) as [[sz [lo hi]]|] eqn:F; [|reflexivity].
  destruct (first_spec _ _ _ _ F) as (Hsz & Hlo & _).
  pose proof (ascii_not_in_range c lo hi Ha Hlo) as Hc1.
  pose proof (ascii_not_in_range c 0x80 0xBF Ha ltac:(lia)) as Hc2.
  unfold utf8.cont.
  destruct Hsz as [-> | [-> | ->]];
    destruct t as [|s1 [|s2 [|s3 t3]]]; simpl;
    rewrite ?Hc1, ?Hc2; simpl;
    repeat match goal with
           | |- context [if ?b then _ else _] => destruct b; simpl
           end; rewrite ?Hc2; reflexivity.
Qed.

Lemma runes_fuel_enough fuel : forall s,
  length s <= fuel -> utf8.runes_fuel fuel s = utf8.runes s.
Proof.
  unfold utf8.runes.
  induction fuel as [fuel IH] using lt_wf_ind. intros s Hs.
  destruct s as [|c t]; [destruct fuel; reflexivity|].
  destruct fuel as [|fuel]; [simpl in Hs; lia|].
  pose proof (width_bounds (c :: t) ltac:(congruence)) as Hw.
  cbn [length] in Hs, Hw.
  assert (Hd : length (drop (utf8.width (c :: t)) (c :: t)) <= length t).
  { rewrite length_drop. cbn [length]. lia. }
  cbn [utf8.runes_fuel length]. f_equal.
  rewrite (IH fuel) by lia.
  rewrite (IH (length t)) by lia. reflexivity.
Qed.

Lemma RuneCount_cons c t :
  utf8.RuneCountInString (c :: t)
    = S (utf8.RuneCountInString (drop (utf8.width (c :: t)) (c :: t))).
Proof.
  unfold utf8.RuneCountInString. unfold utf8.runes at 1.
  pose proof (width_bounds (c :: t) ltac:(congruence)) as Hw.
  cbn [utf8.runes_fuel length]. rewrite runes_fuel_enough; [reflexivity|].
  rewrite length_drop. simpl in *. lia.
Qed.

Lemma RuneCount_ascii_cons c t :
  is_ascii c = true ->
  utf8.RuneCountInString (c :: t) = S (utf8.RuneCountInString t).
Proof.
  intros Ha. rewrite RuneCount_cons. unfold utf8.width.
  rewrite (ascii_first c Ha). reflexivity.
Qed.

Lemma RuneCount_app_ascii c : forall s,
  is_ascii c = true ->
  utf8.RuneCountInString (s ++ [c]) = S (utf8.RuneCountInString s).
Proof.
  intros s Ha. remember (length s) as n eqn:Hn. revert s Hn.
  induction n as [n IH] using lt_wf_ind. intros s Hn.
  destruct s as [|c0 t].
  - simpl. rewrite RuneCount_ascii_cons by assumption. reflexivity.
  - pose proof (width_bounds (c0 :: t) ltac:(congruence)) as Hw.
    change ((c0 :: t) ++ [c]) with (c0 :: (t ++ [c])).
    rewrite (RuneCount_cons c0 t), (RuneCount_cons c0 (t ++ [c])).
    change (c0 :: (t ++ [c])) with ((c0 :: t) ++ [c]).
    rewrite width_app_ascii by (congruence || assumption).
    rewrite drop_app_le by lia. f_equal.
    eapply IH; [|reflexivity]. rewrite length_drop. subst n. simpl in *. lia.
Qed.

(** The padded word has two more runes than the word. *)
Lemma RuneCount_pointed word :
  utf8.RuneCountInString (pointed word) = utf8.RuneCountInString word + 2.
Proof.
  unfold pointed. change (str ".") with ["."%byte].
  change (["."%byte] ++ word ++ ["."%byte]) with ("."%byte :: (word ++ ["."%byte])).
  rewrite RuneCount_ascii_cons by reflexivity.
  rewrite RuneCount_app_ascii by reflexivity. lia.
Qed.

Lemma RuneCount_le_length s : utf8.RuneCountInString s <= length s.
Proof.
  remember (length s) as n eqn:Hn. revert s Hn.
  induction n as [n IH] using lt_wf_ind. intros s Hn.
  destruct s as [|c t]; [subst; vm_compute; lia|].
  pose proof (width_bounds (c :: t) ltac:(congruence)) as Hw.
  rewrite RuneCount_cons.
  pose proof (length_drop (c :: t) (utf8.width (c :: t))) as Hd.
  assert (Hlt : length (drop (utf8.width (c :: t)) (c :: t)) < n) by lia.
  specialize (IH _ Hlt _ eq_refl). lia.
Qed.

End Runes.

(** ** The scan *)

Section Scan.

Lemma foldM_invariant {A B} (P : A -> Prop) (f : A -> B -> result A) l :
  (forall a b a', P a -> f a b = Ok a' -> P a') ->
  forall a a', P a -> foldM f a l = Ok a' -> P a'.
Proof.
  intros Hf. induction l as [|b l IH]; simpl; intros a a' Ha.
  - intros [= <-]. exact Ha.
  - destruct (f a b) as [a1| |] eqn:E; simpl; try discriminate.
    apply IH. eapply Hf; eassumption.
Qed.

Lemma slice_ok {A} (l : list A) lo hi :
  lo <= hi -> hi <= length l -> slice l lo hi = Ok (take (hi - lo) (drop lo l)).
Proof.
  intros H1 H2. unfold slice.
  rewrite (proj2 (Nat.leb_le _ _) H1), (proj2 (Nat.leb_le _ _) H2). reflexivity.
Qed.

(** [byteIndex] returns the index it is given: [s[runeIndex:]] slices by
    bytes, so the length of the tail is [len(s) - runeIndex]. *)
Lemma byteIndex_identity (s : gostring) i :
  i <= length s -> byteIndex s i = Ok i.
Proof.
  intros Hi. unfold byteIndex. rewrite slice_ok by lia. simpl.
  rewrite length_take, length_drop. f_equal. lia.
Qed.

Lemma byteIndex_panic (s : gostring) i : length s < i -> byteIndex s i = Panic.
Proof.
  intros Hi. unfold byteIndex, slice.
  rewrite (proj2 (Nat.leb_gt _ _) Hi). reflexivity.
Qed.

(** The substring the scan looks up is made of the bytes [i .. j-1]. *)
Lemma subWord_bytes (s : gostring) i j :
  i <= j -> j <= length s -> subWord s i j = Ok (take (j - i) (drop i s)).
Proof.
  intros Hij Hj. unfold subWord.
  rewrite !byteIndex_identity by lia. simpl. apply slice_ok; assumption.
Qed.

Lemma in_windows maxlen n i j :
  In (i, j) (windows maxlen n) <->
  i < n - 1 /\ i < j /\ j <= i + maxlen /\ j <= n.
Proof.
  unfold windows. rewrite in_flat_map. split.
  - intros (i' & Hi' & Hin). apply in_seq in Hi'.
    apply in_map_iff in Hin as (j' & [= <- <-] & Hj'). apply in_seq in Hj'. lia.
  - intros (H1 & H2 & H3 & H4). exists i. split; [apply in_seq; lia|].
    apply in_map_iff. exists j. split; [reflexivity|]. apply in_seq. lia.
Qed.

Lemma window_length pats pointedWord (references references' : list iface) ij :
  window pats pointedWord references ij = Ok references' ->
  length references' = length references.
Proof.
  unfold window. destruct (subWord _ _ _) as [sub| |]; simpl; try discriminate.
  destruct (pats !! sub) as [e|].
  - apply merge_values_length.
  - intros [= <-]. reflexivity.
Qed.

Lemma scan_length pats maxlen word references :
  scan pats maxlen word = Ok references ->
  length references = utf8.RuneCountInString word + 3.
Proof.
  unfold scan. intros Hs.
  eapply (foldM_invariant
            (fun r : list iface => length r = utf8.RuneCountInString word + 3))
    in Hs; [exact Hs | |].
  - intros a b a' Ha Hw. rewrite (window_length _ _ _ _ _ Hw). exact Ha.
  - rewrite length_replicate, RuneCount_pointed. lia.
Qed.

Lemma in_collect_points (references : list iface) p :
  In p (collect_points references) ->
  exists i ref, references !! i = Some ref /\ value p = (Z.of_nat i - 1)%Z /\
                Z.odd (numeric ref) = true /\ data p = data_of ref.
Proof.
  unfold collect_points. rewrite in_concat. intros (l & Hl & Hp).
  apply list_elem_of_In, elem_of_lookup_imap in Hl as (i & ref & -> & Href).
  exists i, ref. split; [exact Href|].
  destruct ref as [|v|h]; simpl in Hp |- *; [contradiction| |];
    rewrite rem_two_odd in Hp;
    destruct (Z.odd _) eqn:Ho; simpl in Hp; try contradiction;
    destruct Hp as [<-|[]]; simpl; auto.
Qed.

End Scan.

(** ** The cache and the dictionaries a program can hold *)

Section Engine.
Context `{Unicode}.

Lemma NewHyphDict_cache file hd : NewHyphDict file = Ok hd -> cache hd = ∅.
Proof.
  unfold NewHyphDict. destruct file as [data|]; [|discriminate].
  destruct (_ <? 2); [discriminate|].
  destruct (foldM _ _ _) as [st| |]; simpl; try discriminate.
  intros [= <-]. reflexivity.
Qed.

Lemma Positions_unfold hd word :
  Positions hd word =
    match cache hd !! strings.ToLower word with
    | Some points => Ok (points, hd)
    | None =>
        points <-- fresh_points hd (strings.ToLower word) ;;
        Ok (points, {| patterns := patterns hd;
                       cache := <[strings.ToLower word := points]> (cache hd);
                       maxlen := maxlen hd |})
    end.
Proof.
  unfold Positions, fresh_points.
  destruct (cache hd !! strings.ToLower word); [reflexivity|].
  destruct (scan _ _ _); reflexivity.
Qed.

Lemma Positions_preserves hd word points hd' :
  Positions hd word = Ok (points, hd') ->
  patterns hd' = patterns hd /\ maxlen hd' = maxlen hd /\
  (cache_ok hd -> cache_ok hd').
Proof.
  rewrite Positions_unfold.
  destruct (cache hd !! strings.ToLower word) as [pts|] eqn:Hc.
  - intros [= <- <-]. auto.
  - destruct (fresh_points hd (strings.ToLower word)) as [pts| |] eqn:Hf;
      simpl; try discriminate.
    intros [= <- <-]. simpl. repeat split; try reflexivity.
    intros Hok w pts'. simpl. unfold fresh_points. simpl.
    destruct (decide (strings.ToLower word = w)) as [<-|Hne].
    + rewrite lookup_insert_eq. intros [= <-]. exact Hf.
    + rewrite lookup_insert_ne by assumption. apply Hok.
Qed.

Lemma reachable_cache_ok hd : reachable hd -> cache_ok hd.
Proof.
  induction 1 as [file hd Hnew | hd word points hd' _ IH Hpos].
  - intros w pts. rewrite (NewHyphDict_cache _ _ Hnew), lookup_empty.
    discriminate.
  - apply (Positions_preserves _ _ _ _ Hpos). exact IH.
Qed.

(** On a dictionary whose cache is sound, and so on every reachable one,
    [Positions] returns what the scan of the lowercased word gives,
    whether or not the word is cached. *)
Lemma Positions_fresh hd word :
  cache_ok hd ->
  rmap fst (Positions hd word) = fresh_points hd (strings.ToLower word).
Proof.
  intros Hok. rewrite Positions_unfold.
  destruct (cache hd !! strings.ToLower word) as [pts|] eqn:Hc.
  - rewrite (Hok _ _ Hc). reflexivity.
  - destruct (fresh_points hd (strings.ToLower word)); reflexivity.
Qed.

(** C5 (as amended). Every offset [Positions] emits is one less than the
    index of a slot of the accumulator, which has three more slots than
    the lowercased word has runes: it lies between -1 and the length of
    the word plus one. *)
Theorem Positions_offsets_bounded hd word points hd' p :
  reachable hd ->
  Positions hd word = Ok (points, hd') ->
  In p points ->
  (-1 <= value p <= Z.of_nat (utf8.RuneCountInString (strings.ToLower word)) + 1)%Z.
Proof.
  intros Hr Hpos Hp.
  pose proof (Positions_fresh hd word (reachable_cache_ok _ Hr)) as Hf.
  rewrite Hpos in Hf. simpl in Hf. symmetry in Hf.
  unfold fresh_points in Hf.
  destruct (scan _ _ _) as [refs| |] eqn:Hs; simpl in Hf; try discriminate.
  injection Hf as <-.
  apply in_collect_points in Hp as (i & ref & Hi & -> & _).
  apply lookup_lt_Some in Hi. rewrite (scan_length _ _ _ _ Hs) in Hi. lia.
Qed.

(** C6 (as amended). On a dictionary that stores no pattern under the
    keys [.] and [..], [Positions] returns no break point for the empty
    word. *)
Theorem Positions_empty_word hd :
  reachable hd ->
  patterns hd !! str "." = None ->
  patterns hd !! str ".." = None ->
  rmap fst (Positions hd []) = Ok [].
Proof.
  intros Hr H1 H2.
  change (str ".") with ["."%byte] in H1.
  change (str "..") with ["."%byte; "."%byte] in H2.
  rewrite (Positions_fresh hd [] (reachable_cache_ok _ Hr)).
  unfold fresh_points, scan. change (strings.ToLower []) with (@nil byte).
  change (utf8.RuneCountInString (pointed [])) with 2.
  change (pointed []) with (str "..").
  unfold windows. cbn [seq flat_map Nat.sub Nat.add app].
  destruct (maxlen hd) as [|[|m]].
  - reflexivity.
  - cbn. rewrite H1. reflexivity.
  - replace (Nat.min (S (S m)) 2) with 2 by lia.
    cbn. rewrite H1. cbn. rewrite H2. reflexivity.
Qed.

End Engine.

(** ** Case *)

Section Case.
Context `{Unicode}.

Lemma ascii_byte_case c :
  is_ascii c = true ->
  is_ascii (strings.lower_byte c) = true /\
  is_ascii (strings.upper_byte c) = true /\
  strings.lower_byte (strings.lower_byte c) = strings.lower_byte c /\
  strings.lower_byte (strings.upper_byte c) = strings.lower_byte c.
Proof. destruct c; vm_compute; intros Hc; auto; discriminate. Qed.

Lemma forallb_ascii_map (f : byte -> byte) w :
  (forall c, is_ascii c = true -> is_ascii (f c) = true) ->
  forallb is_ascii w = true -> forallb is_ascii (map f w) = true.
Proof.
  intros Hf. induction w as [|c w IH]; simpl; [reflexivity|].
  intros Hw. apply andb_true_iff in Hw as [Hc Hw].
  rewrite (Hf c Hc), (IH Hw). reflexivity.
Qed.

Lemma map_ascii_ext (f g : byte -> byte) w :
  (forall c, is_ascii c = true -> f c = g c) ->
  forallb is_ascii w = true -> map f w = map g w.
Proof.
  intros Hf. induction w as [|c w IH]; simpl; [reflexivity|].
  intros Hw. apply andb_true_iff in Hw as [Hc Hw].
  rewrite (Hf c Hc), (IH Hw). reflexivity.
Qed.

(** Every ASCII word is case-foldable, whatever the Unicode tables. *)
Lemma ascii_case_foldable word :
  forallb is_ascii word = true -> case_foldable word.
Proof.
  intros Hw. unfold case_foldable, strings.ToLower, strings.ToUpper.
  rewrite Hw.
  rewrite (forallb_ascii_map strings.lower_byte word)
    by (assumption || intros c Hc; apply (ascii_byte_case c Hc)).
  rewrite (forallb_ascii_map strings.upper_byte word)
    by (assumption || intros c Hc; apply (ascii_byte_case c Hc)).
  rewrite !map_map. split; apply map_ascii_ext; try assumption;
    intros c Hc; apply (ascii_byte_case c Hc).
Qed.

Lemma Positions_cached hd word points hd' :
  Positions hd word = Ok (points, hd') ->
  cache hd' !! strings.ToLower word = Some points.
Proof.
  rewrite Positions_unfold.
  destruct (cache hd !! strings.ToLower word) as [pts|] eqn:Hc.
  - intros [= <- <-]. exact Hc.
  - destruct (fresh_points hd (strings.ToLower word)); simpl; try discriminate.
    intros [= <- <-]. simpl. apply lookup_insert_eq.
Qed.

(** C9. [Positions] is case-insensitive: on a case-foldable word, its
    lowercase form and its uppercase form, it returns the same points
    (and leaves the dictionary in the same state), and a call on either
    form after a call on the word returns the same points again. *)
Theorem Positions_case_insensitive hd word :
  case_foldable word ->
  Positions hd word = Positions hd (strings.ToLower word) /\
  Positions hd (strings.ToLower word) = Positions hd (strings.ToUpper word) /\
  (forall points hd',
     Positions hd word = Ok (points, hd') ->
     Positions hd' (strings.ToLower word) = Ok (points, hd') /\
     Positions hd' (strings.ToUpper word) = Ok (points, hd')).
Proof.
  intros [Hl Hu]. rewrite !Positions_unfold, Hl, Hu.
  split; [reflexivity|]. split; [reflexivity|].
  intros points hd' Hpos. rewrite <- Positions_unfold in Hpos.
  apply Positions_cached in Hpos.
  rewrite !Positions_unfold, Hl, Hu, Hpos. split; reflexivity.
Qed.

End Case.

(** ** Letters of a key *)

Section Units.

Lemma in_range_cont lo hi c :
  (0x80 <= lo)%N -> (hi <= 0xBF)%N -> in_range lo hi c = true -> utf8.cont c = true.
Proof.
  unfold utf8.cont, in_range. intros Hlo Hhi Hc.
  apply andb_true_iff in Hc as [H1 H2].
  apply N.leb_le in H1. apply N.leb_le in H2.
  apply andb_true_iff. split; apply N.leb_le; lia.
Qed.

Lemma cont_first c : utf8.cont c = true -> utf8.first c = None.
Proof.
  unfold utf8.cont, in_range, utf8.first. intros Hc.
  apply andb_true_iff in Hc as [_ H2]. apply N.leb_le in H2.
  destruct (N.ltb_spec (code c) 194); [reflexivity | lia].
Qed.

(** The bytes a rune of width above 1 takes after its first byte are
    continuation bytes. *)
Lemma width_cases c t :
  utf8.width (c :: t) = 1 \/
  exists pre post, t = pre ++ post /\ utf8.width (c :: t) = S (length pre) /\
                   pre <> [] /\ Forall (fun b => utf8.cont b = true) pre.
Proof.
  unfold utf8.width.
  destruct (utf8.first c) as [[sz [lo hi]]|] eqn:F; [|left; reflexivity].
  destruct (first_spec _ _ _ _ F) as (Hsz & Hlo & Hhi & _).
  pose proof (in_range_cont lo hi) as Hcont.
  destruct Hsz as [-> | [-> | ->]];
    destruct t as [|s1 [|s2 [|s3 t3]]]; simpl; auto;
    destruct (in_range lo hi s1) eqn:E1; simpl; auto;
    try (destruct (utf8.cont s2) eqn:E2; simpl; auto);
    try (destruct (utf8.cont s3) eqn:E3; simpl; auto);
    right.
  all: first
    [ exists [s1], (@nil byte); split; [reflexivity|]; split; [reflexivity|];
      split; [congruence|]; repeat constructor; auto; fail
    | exists [s1], [s2]; split; [reflexivity|]; split; [reflexivity|];
      split; [congruence|]; repeat constructor; auto; fail
    | exists [s1], (s2 :: s3 :: t3); split; [reflexivity|]; split; [reflexivity|];
      split; [congruence|]; repeat constructor; auto; fail
    | exists [s1; s2], (@nil byte); split; [reflexivity|]; split; [reflexivity|];
      split; [congruence|]; repeat constructor; auto; fail
    | exists [s1; s2], (s3 :: t3); split; [reflexivity|]; split; [reflexivity|];
      split; [congruence|]; repeat constructor; auto; fail
    | exists [s1; s2; s3], t3; split; [reflexivity|]; split; [reflexivity|];
      split; [congruence|]; repeat constructor; auto ].
Qed.

(** The width of a rune depends on its own bytes only. *)
Lemma width_prefix u x :
  2 <= length u -> utf8.width u = length u -> utf8.width (u ++ x) = length u.
Proof.
  destruct u as [|c t]; [simpl; lia|]. intros Hlen Hw.
  change ((c :: t) ++ x) with (c :: (t ++ x)). revert Hw. unfold utf8.width.
  destruct (utf8.first c) as [[sz [lo hi]]|] eqn:F; [|simpl in *; lia].
  destruct (first_spec _ _ _ _ F) as (Hsz & _).
  destruct Hsz as [-> | [-> | ->]];
    destruct t as [|s1 [|s2 [|s3 [|s4 t4]]]]; simpl in *; try lia;
    repeat match goal with
           | |- context [if ?b then _ else _] => destruct b; simpl
           end; try lia; auto.
Qed.

Lemma width_singleton c : utf8.width [c] = 1.
Proof.
  unfold utf8.width.
  destruct (utf8.first c) as [[sz [lo hi]]|] eqn:F; [|reflexivity].
  destruct (first_spec _ _ _ _ F) as ([-> | [-> | ->]] & _); reflexivity.
Qed.

Lemma take_width_one_rune s : s <> [] -> one_rune (take (utf8.width s) s).
Proof.
  intros Hs. pose proof (width_bounds s Hs) as Hb.
  destruct s as [|c t]; [congruence|]. split.
  - destruct (utf8.width (c :: t)); [lia | simpl; congruence].
  - rewrite length_take, Nat.min_l by lia.
    destruct (width_cases c t) as [H1 | (pre & post & -> & Hw & Hne & Hc)].
    + rewrite H1. simpl. rewrite ?take_0. apply width_singleton.
    + rewrite Hw. change (take (S (length pre)) (c :: pre ++ post))
        with (c :: take (length pre) (pre ++ post)).
      rewrite take_app_length.
      revert Hw. unfold utf8.width.
      destruct (utf8.first c) as [[sz [lo hi]]|] eqn:F;
        [|destruct pre; [congruence | simpl; lia]].
      destruct (first_spec _ _ _ _ F) as (Hsz & _).
      destruct Hsz as [-> | [-> | ->]];
        destruct pre as [|s1 [|s2 [|s3 [|s4 p4]]]]; try congruence;
        destruct post as [|p1 [|p2 [|p3 post]]]; simpl;
        repeat match goal with
               | |- context [if ?b then _ else _] => destruct b; simpl
               end; intros; try lia; auto.
Qed.

(** Taking a continuation byte off the front of a concatenation of
    letters takes a whole letter off. *)
Lemma peel_cont us : forall b tl,
  Forall letter us -> concat us = b :: tl -> utf8.cont b = true ->
  exists us', concat us' = tl /\ length us' < length us /\ Forall letter us'.
Proof.
  induction us as [|u us IH]; intros b tl Hus Hcat Hb; [discriminate|].
  apply Forall_cons in Hus as [Hu Hus].
  destruct u as [|c u'].
  - simpl in Hcat. destruct (IH b tl Hus Hcat Hb) as (us' & H1 & H2 & H3).
    exists us'. simpl. repeat split; auto; lia.
  - simpl in Hcat. injection Hcat as -> Htl.
    destruct Hu as [[=] | [_ Hw]].
    unfold utf8.width in Hw. rewrite (cont_first _ Hb) in Hw.
    destruct u'; [|simpl in Hw; lia].
    exists us. simpl in Htl. repeat split; auto; simpl; lia.
Qed.

Lemma peel_conts pre : forall us post,
  Forall letter us -> concat us = pre ++ post ->
  Forall (fun b => utf8.cont b = true) pre ->
  exists us', concat us' = post /\ length us' <= length us /\ Forall letter us'.
Proof.
  induction pre as [|b pre IH]; intros us post Hus Hcat Hpre.
  - exists us. auto.
  - apply Forall_cons in Hpre as [Hb Hpre].
    destruct (peel_cont us b (pre ++ post) Hus Hcat Hb) as (us1 & H1 & H2 & H3).
    destruct (IH us1 post H3 H1 Hpre) as (us2 & H4 & H5 & H6).
    exists us2. repeat split; auto. unfold gostring in *. lia.
Qed.

(** A concatenation of letters has at most as many runes as letters:
    letters can merge into one rune, never split. *)
Lemma RuneCount_letters n : forall us : list (list byte),
  length us = n -> Forall letter us ->
  utf8.RuneCountInString (concat us) <= length us.
Proof.
  induction n as [n IH] using lt_wf_ind. intros us Hn Hus.
  destruct us as [|u us]; [vm_compute; lia|].
  pose proof Hus as Hall. apply Forall_cons in Hus as [Hu Hus].
  cbn [length] in Hn |- *.
  assert (IHus : utf8.RuneCountInString (concat us) <= length us)
    by (apply (IH (length us)); [lia | reflexivity | exact Hus]).
  destruct u as [|c u'].
  - simpl. lia.
  - destruct Hu as [[=] | [_ Hw]].
    cbn [concat]. change ((c :: u') ++ concat us) with (c :: (u' ++ concat us)).
    rewrite RuneCount_cons.
    destruct u' as [|c' u''].
    + cbn [app].
      destruct (width_cases c (concat us)) as [H1 | (pre & post & Hcat & Hw' & _ & Hc)].
      * rewrite H1. cbn [drop]. unfold gostring in *. rewrite drop_0. lia.
      * rewrite Hw'. cbn [drop]. rewrite Hcat, drop_app_length.
        destruct (peel_conts pre us post Hus Hcat Hc) as (us' & <- & Hlen & Hall').
        unfold gostring in *.
        assert (utf8.RuneCountInString (concat us') <= length us')
          by (apply (IH (length us')); [lia | reflexivity | exact Hall']).
        lia.
    + change (c :: (c' :: u'') ++ concat us) with ((c :: c' :: u'') ++ concat us).
      rewrite width_prefix by (simpl; lia || exact Hw).
      rewrite drop_app_length. lia.
Qed.

Lemma tokens_letters fuel : forall s,
  Forall letter (map snd (regexp.tokens fuel s)).
Proof.
  induction fuel as [|fuel IH]; intros s; [constructor|].
  destruct s as [|c t]; [constructor|]. cbn [regexp.tokens].
  destruct (is_digit c).
  - destruct t as [|d t'].
    + cbn [map snd]. constructor; [left; reflexivity | constructor].
    + destruct (is_digit d); cbn [map snd]; constructor; try apply IH.
      * left; reflexivity.
      * right. apply take_width_one_rune. congruence.
  - cbn [map snd]. constructor; [|apply IH].
    right. apply take_width_one_rune. congruence.
Qed.

(** The key of a pattern has at most as many characters as the pattern
    has tokens. *)
Lemma key_length_le_tokens pattern :
  utf8.RuneCountInString
    (strings.Join (map snd (regexp.FindAllStringSubmatch pattern)))
  <= length (regexp.FindAllStringSubmatch pattern).
Proof.
  unfold strings.Join.
  rewrite <- (length_map snd (regexp.FindAllStringSubmatch pattern)).
  eapply RuneCount_letters; [reflexivity|].
  unfold regexp.FindAllStringSubmatch. destruct pattern as [|c t].
  - cbn [map snd]. constructor; [left; reflexivity | constructor].
  - apply tokens_letters.
Qed.

End Units.

(** ** The dictionary loader *)

Section Loader.
Context `{Unicode}.

Lemma collect_tags ms : forall f, fst (collect f ms) = map snd ms.
Proof.
  induction ms as [|[i s] ms IH]; intros f; [reflexivity|].
  cbn [collect]. destruct (apply_factory f (atoi i)) as [f' v].
  specialize (IH f'). destruct (collect f' ms) as [tags vals].
  simpl in *. congruence.
Qed.

Lemma collect_wf ms : forall f, Forall weight_wf (snd (collect f ms)).
Proof.
  induction ms as [|[i s] ms IH]; intros f; [constructor|].
  cbn [collect]. destruct (apply_factory f (atoi i)) as [f' v] eqn:E.
  specialize (IH f'). destruct (collect f' ms) as [tags vals].
  cbn [snd] in *. constructor; [|exact IH].
  destruct f as [ap|]; cbn [apply_factory] in E.
  - rewrite Parse_spec in E. injection E as _ <-. unfold tag_weight.
    destruct (Z.odd (atoi i)) eqn:Ho; simpl; auto.
  - injection E as _ <-. exact I.
Qed.

Lemma nonzero_numeric v : weight_wf v -> is_zero v = false -> numeric v <> 0%Z.
Proof.
  destruct v as [|i|h]; simpl; intros Hw Hz; [contradiction| |].
  - apply Z.eqb_neq. exact Hz.
  - intros Hv. rewrite Hv in Hw. discriminate.
Qed.

Lemma signal_not_zero v : signal v = true -> is_zero v = false.
Proof.
  destruct v as [|i|h]; simpl; intros Hi; try reflexivity; try discriminate.
  apply Z.ltb_lt in Hi. apply Z.eqb_neq. lia.
Qed.

Lemma zero_no_signal v : numeric v = 0%Z -> weight_wf v -> signal v = false.
Proof.
  destruct v as [|i|h]; simpl; intros Hv Hw; try reflexivity.
  - subst i. reflexivity.
  - rewrite Hv in Hw. discriminate.
Qed.

Lemma scan_start_spec rest : forall k,
  Exists (fun v => is_zero v = false) rest ->
  exists n v, scan_start rest k = Ok (k + n) /\ rest !! n = Some v /\
              is_zero v = false /\
              forall i v', i < n -> rest !! i = Some v' -> is_zero v' = true.
Proof.
  induction rest as [|v rest IH]; intros k Hex; [inversion Hex|].
  cbn [scan_start]. destruct (is_zero v) eqn:Hz.
  - apply Exists_cons in Hex as [Hv | Hex]; [congruence|].
    destruct (IH (S k) Hex) as (n & v0 & Hs & Hn & Hv0 & Hmin).
    exists (S n), v0. rewrite Hs.
    split; [apply (f_equal Ok); lia|].
    split; [exact Hn|]. split; [exact Hv0|].
    intros [|i] v' Hi Hv'; simpl in Hv'; [congruence|].
    apply (Hmin i v'); [lia | exact Hv'].
  - exists 0, v.
    split; [apply (f_equal Ok); lia|].
    split; [reflexivity|]. split; [exact Hz|]. intros; lia.
Qed.

Lemma scan_end_spec before : forall e,
  Exists (fun v => is_zero v = false) before ->
  exists m v, scan_end before e = Ok (e - m) /\ before !! m = Some v /\
              is_zero v = false.
Proof.
  induction before as [|v before IH]; intros e Hex; [inversion Hex|].
  cbn [scan_end]. destruct (is_zero v) eqn:Hz.
  - apply Exists_cons in Hex as [Hv | Hex]; [congruence|].
    destruct (IH (e - 1) Hex) as (m & v0 & Hs & Hm & Hv0).
    exists (S m), v0. rewrite Hs.
    split; [apply (f_equal Ok); lia|]. split; [exact Hm | exact Hv0].
  - exists 0, v.
    split; [apply (f_equal Ok); lia|]. split; [reflexivity | exact Hz].
Qed.

Lemma store_spec st tags vals st' :
  Forall weight_wf vals ->
  store st tags vals = Ok st' ->
  (hasNonZero vals = false /\ st' = st) \/
  (hasNonZero vals = true /\
   exists e, entry_good e /\
             st' = (<[strings.Join tags := e]> (fst st),
                    Nat.max (snd st) (length tags))).
Proof.
  intros Hwf. unfold store.
  destruct (hasNonZero vals) eqn:Hnz; cbn [negb];
    [|intros [= <-]; left; auto].
  right. split; [reflexivity|].
  assert (Hex : Exists (fun v => is_zero v = false) vals).
  { unfold hasNonZero in Hnz. apply existsb_exists in Hnz as (v & Hin & Hs).
    apply Exists_exists. exists v. split; [apply list_elem_of_In; exact Hin|].
    apply signal_not_zero. exact Hs. }
  destruct (scan_start_spec vals 0 Hex) as (n & v & Hs & Hn & Hv & Hmin).
  assert (Hex' : Exists (fun v => is_zero v = false) (rev vals)).
  { apply Exists_exists in Hex as (x & Hx & Hzx). apply Exists_exists.
    exists x. split; [|exact Hzx].
    apply list_elem_of_In, in_rev. rewrite rev_involutive.
    apply list_elem_of_In. exact Hx. }
  destruct (scan_end_spec (rev vals) (length vals) Hex') as (m & v' & He & Hm & Hv').
  rewrite Hs, He in H0. cbn [rbind Nat.add] in H0.
  pose proof (lookup_lt_Some _ _ _ Hm) as Hmlt. rewrite length_rev in Hmlt.
  rewrite rev_alt in Hm. change (rev_append vals []) with (reverse vals) in Hm.
  rewrite reverse_lookup in Hm by exact Hmlt.
  pose proof (lookup_lt_Some _ _ _ Hn) as Hnlt.
  assert (Hle : n <= length vals - S m).
  { destruct (Nat.le_gt_cases n (length vals - S m)) as [Hle|Hgt]; [exact Hle|].
    rewrite (Hmin _ _ Hgt Hm) in Hv'. discriminate. }
  rewrite slice_ok in H0 by lia. cbn [rbind] in H0. injection H0 as <-.
  eexists. split; [|reflexivity].
  exists v, v'. cbn [values].
  assert (Hw : forall i x, vals !! i = Some x -> weight_wf x).
  { intros i x Hx. eapply Forall_lookup_1; eassumption. }
  repeat split.
  - rewrite head_lookup, lookup_take_lt by lia.
    rewrite lookup_drop, Nat.add_0_r. exact Hn.
  - rewrite last_lookup, length_take, length_drop.
    rewrite lookup_take_lt by lia. rewrite lookup_drop.
    replace (n + pred (Nat.min (length vals - m - n) (length vals - n)))
      with (length vals - S m) by lia.
    exact Hm.
  - apply nonzero_numeric; [eapply Hw; eassumption | exact Hv].
  - apply nonzero_numeric; [eapply Hw; eassumption | exact Hv'].
Qed.

Lemma load_line_inv st line st' :
  loader_inv st -> load_line st line = Ok st' -> loader_inv st'.
Proof.
  intros Hinv. unfold load_line.
  destruct (effective line) as [pattern|]; [|intros [= <-]; exact Hinv].
  destruct (split_alternative pattern) as [[p f]| |]; cbn [rbind fst snd];
    try discriminate.
  unfold scan_pattern.
  pose proof (collect_tags (regexp.FindAllStringSubmatch p) f) as Ht.
  pose proof (collect_wf (regexp.FindAllStringSubmatch p) f) as Hw.
  destruct (collect f (regexp.FindAllStringSubmatch p)) as [tags vals].
  cbn [fst snd] in Ht, Hw. intros Hst.
  destruct (store_spec _ _ _ _ Hw Hst) as [[_ ->] | (_ & e & He & ->)];
    [exact Hinv|].
  intros key e'. cbn [fst snd].
  destruct (decide (strings.Join tags = key)) as [<-|Hne].
  - rewrite lookup_insert_eq. intros [= <-]. split; [|exact He].
    subst tags. pose proof (key_length_le_tokens p) as Hk.
    rewrite length_map. lia.
  - rewrite lookup_insert_ne by exact Hne. intros Hk.
    destruct (Hinv _ _ Hk) as [H1 H2]. split; [lia | exact H2].
Qed.

Lemma NewHyphDict_inv file hd :
  NewHyphDict file = Ok hd -> loader_inv (patterns hd, maxlen hd).
Proof.
  unfold NewHyphDict. destruct file as [data|]; [|discriminate].
  destruct (_ <? 2); [discriminate|].
  destruct (foldM _ _ _) as [st| |] eqn:Hf; cbn [rbind]; try discriminate.
  intros [= <-]. cbn [patterns maxlen].
  eapply (foldM_invariant loader_inv) in Hf.
  - destruct st; exact Hf.
  - intros a b a'. apply load_line_inv.
  - intros key e. cbn [fst]. rewrite lookup_empty. discriminate.
Qed.

Lemma NewHyphDict_unfold data :
  NewHyphDict (Some data) =
    if length (strings.Split data "010"%byte) <? 2 then Err
    else st <-- foldM load_line (∅, 0) (pattern_lines data) ;;
         Ok {| patterns := fst st; cache := ∅; maxlen := snd st |}.
Proof.
  unfold NewHyphDict, pattern_lines.
  destruct (_ <? 2); [reflexivity|].
  destruct (bool_decide _); reflexivity.
Qed.



End Loader.

Section LoaderProperties.
Context `{Unicode}.

(** C10. Zero-signal patterns are never stored: a line whose weights are
    all zero leaves the pattern map and [maxlen] as they were, and every
    entry of a loaded dictionary has a non-empty trimmed weight sequence
    with a weight that is not zero (its first and its last one). *)
Theorem zero_patterns_not_stored :
  (forall st line vals,
     line_weights line = Ok vals ->
     Forall (fun v => numeric v = 0%Z) vals ->
     load_line st line = Ok st) /\
  (forall file hd key e,
     NewHyphDict file = Ok hd ->
     patterns hd !! key = Some e ->
     values e <> [] /\
     Exists (fun v => numeric v <> 0%Z) (values e) /\
     entry_good e).
Proof.
  split.
  - intros st line vals. unfold line_weights, load_line.
    destruct (effective line) as [pattern|]; [|reflexivity].
    destruct (split_alternative pattern) as [[p f]| |]; cbn [rbind fst snd];
      try discriminate.
    unfold scan_pattern.
    pose proof (collect_wf (regexp.FindAllStringSubmatch p) f) as Hw.
    destruct (collect f (regexp.FindAllStringSubmatch p)) as [tags vs].
    cbn [snd] in *. intros [= <-] Hz. unfold store.
    replace (hasNonZero vs) with false; [reflexivity|].
    symmetry. unfold hasNonZero. apply not_true_is_false. intros Hex.
    apply existsb_exists in Hex as (v & Hin & Hs).
    rewrite Forall_forall in Hz, Hw.
    apply list_elem_of_In in Hin.
    rewrite (zero_no_signal v (Hz v Hin) (Hw v Hin)) in Hs. discriminate.
  - intros file hd key e Hnew Hkey.
    destruct (NewHyphDict_inv file hd Hnew key e Hkey) as [_ Hgood].
    pose proof Hgood as (v & v' & Hhead & _ & Hv & _).
    apply head_Some in Hhead as [rest Hrest].
    split; [rewrite Hrest; discriminate|]. split; [|exact Hgood].
    rewrite Hrest. apply Exists_cons_hd. exact Hv.
Qed.


End LoaderProperties.

(** ** Concrete dictionaries and words *)

(** C1. The scan indexes the padded word by byte: [byteIndex] returns the
    index it is given. On the word [éa] (padded: 5 bytes, 4 runes) the window
    [1, 2) is looked up as the single byte 0xC3 where the code points 1..1
    are the two bytes of [é], and the window [1, 3) as [é] where the code
    points are [éa]; the stored pattern [é1a] is never found, so the word
    gets no break point, where the same pattern and word with [e] get the
    break at offset 1. *)
Theorem scan_indexes_bytes :
  let pw := pointed word_e_acute in
  length pw = 5 /\ utf8.RuneCountInString pw = 4 /\
  byteIndex pw 1 = Ok 1 /\ byteIndex pw 2 = Ok 2 /\
  In (1, 2) (windows (maxlen (loaded file_e_acute)) 4) /\
  subWord pw 1 2 = Ok [xc3] /\
  code_points pw 1 2 = [xc3; xa9] /\
  In (1, 3) (windows (maxlen (loaded file_e_acute)) 4) /\
  subWord pw 1 3 = Ok [xc3; xa9] /\
  code_points pw 1 3 = word_e_acute /\
  patterns (loaded file_e_acute) !! word_e_acute
    = Some {| start := 1; values := [IInt 1] |} /\
  @load_and_hyphenate caseless_text file_e_acute word_e_acute = Ok [] /\
  @load_and_hyphenate caseless_text (file_of ["UTF-8"; "e1a"]%string) (str "ea")
    = Ok [{| value := 1; data := None |}].
Proof.
  cbv zeta. repeat split; try (vm_compute; reflexivity).
  - vm_compute. tauto.
  - vm_compute. tauto.
Qed.

(** C4. A clause with fewer than three fields makes the loader panic:
    [newAlternativeParser] indexes [parts[1]] and [parts[2]] without looking
    at the length of [parts]. Fields that are present and not numeric do
    count as zero. *)
Theorem short_clause_panics :
  newAlternativeParser (str "a1b") (str "x=y") = Panic /\
  newAlternativeParser (str "a1b") (str "x=y,1") = Panic /\
  @NewHyphDict caseless_text (file_of ["UTF-8"; "a1b/x=y"]%string) = Panic /\
  @NewHyphDict caseless_text (file_of ["UTF-8"; "c1d"; "a1b/x=y,1"]%string) = Panic /\
  newAlternativeParser (str "a1b") (str "x=y,q,")
    = Ok {| change := str "x=y"; index := 0; cut := 0 |} /\
  rmap maxlen (@NewHyphDict caseless_text (file_of ["UTF-8"; "a1b/x=y,q,"]%string))
    = Ok 2.
Proof. repeat split; vm_compute; reflexivity. Qed.

(** C7. [Positions] panics on a dictionary that [NewHyphDict] accepts: the
    line [a1234] stores the key [a] with start 1 and four weights, and on
    the word [a] (accumulator of 4 slots) the scan writes at the indices
    2, 3, 4 and 5. *)
Theorem Positions_panics :
  rmap (fun hd => (patterns hd !! str "a", maxlen hd))
       (@NewHyphDict caseless_text (file_of ["UTF-8"; "a1234"]%string))
    = Ok (Some {| start := 1; values := [IInt 1; IInt 2; IInt 3; IInt 4] |}, 5) /\
  length (replicate (utf8.RuneCountInString (pointed (str "a")) + 1) INil) = 4 /\
  merge_values (replicate 4 INil) (1 + 1) [IInt 1; IInt 2; IInt 3; IInt 4] = Panic /\
  merge [INil; INil; IInt 1; IInt 2] 4 (IInt 3) = Panic /\
  @load_and_hyphenate caseless_text (file_of ["UTF-8"; "a1234"]%string) (str "a")
    = Panic.
Proof. repeat split; vm_compute; reflexivity. Qed.


(** The patterns [1.a], [a1.] and [a.1] put a break before the first
    boundary marker, after the last character of the word [a] and after the
    last boundary marker. *)
Lemma offset_outside_word :
  @load_and_hyphenate caseless_text (file_of ["UTF-8"; "1.a"]%string) (str "a")
    = Ok [{| value := -1; data := None |}] /\
  ~ (0 <= -1)%Z /\
  @load_and_hyphenate caseless_text (file_of ["UTF-8"; "a1."]%string) (str "a")
    = Ok [{| value := 1; data := None |}] /\
  ~ (1 < Z.of_nat (utf8.RuneCountInString (str "a")))%Z /\
  @load_and_hyphenate caseless_text (file_of ["UTF-8"; "a.1"]%string) (str "a")
    = Ok [{| value := 2; data := None |}].
Proof.
  repeat split; try (vm_compute; reflexivity).
  - lia.
  - vm_compute. discriminate.
Qed.

(** The pattern [.1] gives the empty word a break point. *)
Lemma empty_word_break :
  @load_and_hyphenate caseless_text (file_of ["UTF-8"; ".1"]%string) []
    = Ok [{| value := 0; data := None |}] /\
  @load_and_hyphenate caseless_text (file_of ["UTF-8"; ".1"]%string) [] <> Ok [].
Proof. split; [vm_compute; reflexivity | vm_compute; discriminate]. Qed.

Lemma loaded_reachable (l : list string) hd :
  @NewHyphDict caseless_text (file_of l) = Ok hd -> @reachable caseless_text hd.
Proof. apply (@reach_new caseless_text). Qed.


Lemma Positions_offsets_bounded_witness :
  (-1 <= -1 <= Z.of_nat (utf8.RuneCountInString
                           (@strings.ToLower caseless_text (str "A"))) + 1)%Z.
Proof.
  eapply (@Positions_offsets_bounded caseless_text
            (loaded (file_of ["UTF-8"; "1.a"]%string)) (str "A")
            [{| value := -1; data := None |}] _
            {| value := -1; data := None |}).
  - apply (loaded_reachable ["UTF-8"; "1.a"]%string). vm_compute. reflexivity.
  - vm_compute. reflexivity.
  - left. reflexivity.
Defined.

Lemma Positions_empty_word_witness :
  rmap fst (@Positions caseless_text (loaded (file_of ["UTF-8"; "a1b"; ".a1"]%string)) [])
    = Ok [].
Proof.
  apply (@Positions_empty_word caseless_text).
  - apply (loaded_reachable ["UTF-8"; "a1b"; ".a1"]%string). vm_compute. reflexivity.
  - vm_compute. reflexivity.
  - vm_compute. reflexivity.
Defined.

Lemma Positions_case_insensitive_witness :
  let hd := loaded (file_of ["UTF-8"; "hy3p"]%string) in
  @Positions caseless_text hd (str "HyPhen") = @Positions caseless_text hd (str "hyphen") /\
  @Positions caseless_text hd (str "hyphen") = @Positions caseless_text hd (str "HYPHEN") /\
  rmap fst (@Positions caseless_text hd (str "HyPhen"))
    = Ok [{| value := 2; data := None |}].
Proof.
  intros hd.
  destruct (@Positions_case_insensitive caseless_text hd (str "HyPhen"))
    as (H1 & H2 & _).
  - apply ascii_case_foldable. vm_compute. reflexivity.
  - split; [exact H1|]. split; [exact H2|]. vm_compute. reflexivity.
Defined.

Lemma zero_patterns_not_stored_witness :
  @load_line caseless_text (∅, 0) (str "a0b0") = Ok (∅, 0) /\
  (forall key e,
     patterns (loaded (file_of ["UTF-8"; "a0b0"; "0a1b0"]%string)) !! key = Some e ->
     values e <> [] /\ Exists (fun v => numeric v <> 0%Z) (values e) /\ entry_good e).
Proof.
  split.
  - apply (proj1 (@zero_patterns_not_stored caseless_text) (∅, 0) (str "a0b0")
             [IInt 0; IInt 0; IInt 0]).
    + vm_compute. reflexivity.
    + repeat constructor.
  - intros key e.
    apply (proj2 (@zero_patterns_not_stored caseless_text)
             (file_of ["UTF-8"; "a0b0"; "0a1b0"]%string)).
    vm_compute. reflexivity.
Defined.


(** ** Further properties of the position engine *)

Section EngineMore.
Context `{Unicode}.


(** X2. Calls of [Positions] do not influence one another: on a
    dictionary a program can hold, a call leaves the patterns and [maxlen]
    untouched, and every later call returns the points it would have
    returned before. *)
Theorem Positions_history_independent hd word points hd' :
  reachable hd ->
  Positions hd word = Ok (points, hd') ->
  patterns hd' = patterns hd /\ maxlen hd' = maxlen hd /\
  forall other, rmap fst (Positions hd' other) = rmap fst (Positions hd other).
Proof.
  intros Hr Hpos.
  destruct (Positions_preserves _ _ _ _ Hpos) as (Hp & Hm & Hc).
  split; [exact Hp|]. split; [exact Hm|]. intros other.
  rewrite (Positions_fresh hd' other (Hc (reachable_cache_ok _ Hr))).
  rewrite (Positions_fresh hd other (reachable_cache_ok _ Hr)).
  unfold fresh_points. rewrite Hp, Hm. reflexivity.
Qed.

Lemma point_cases i ref :
  (Z.odd (numeric ref) = true /\
   point i ref = [{| value := Z.of_nat i - 1; data := data_of ref |}]) \/
  (Z.odd (numeric ref) = false /\ point i ref = []).
Proof.
  destruct ref as [|v|h]; simpl; [right; auto | |];
    rewrite rem_two_odd; destruct (Z.odd _); simpl; auto.
Qed.

Lemma points_from_sorted (references : list iface) : forall k,
  StronglySorted Z.lt
    (map value (concat (imap (fun i => point (k + i)) references))) /\
  Forall (fun p => (Z.of_nat k - 1 <= value p)%Z)
    (concat (imap (fun i => point (k + i)) references)).
Proof.
  induction references as [|ref references IH]; intros k.
  - split; constructor.
  - cbn [imap concat].
    rewrite (imap_ext _ (fun i => point (S k + i)) references)
      by (intros i x _; simpl; f_equal; lia).
    destruct (IH (S k)) as [Hs Hf].
    destruct (point_cases (k + 0) ref) as [[_ ->] | [_ ->]]; cbn [app map].
    + split.
      * constructor; [exact Hs|]. rewrite Forall_map.
        eapply Forall_impl; [exact Hf|]. simpl. intros p Hp. lia.
      * constructor; [simpl; lia|].
        eapply Forall_impl; [exact Hf|]. simpl. intros p Hp. lia.
    + split; [exact Hs|].
      eapply Forall_impl; [exact Hf|]. simpl. intros p Hp. lia.
Qed.

(** X3. The break points come in strictly ascending order of offset. *)
Theorem Positions_ascending hd word points hd' :
  reachable hd ->
  Positions hd word = Ok (points, hd') ->
  StronglySorted Z.lt (map value points).
Proof.
  intros Hr Hpos.
  pose proof (Positions_fresh hd word (reachable_cache_ok _ Hr)) as Hf.
  rewrite Hpos in Hf. simpl in Hf. symmetry in Hf. unfold fresh_points in Hf.
  destruct (scan _ _ _) as [refs| |]; simpl in Hf; try discriminate.
  injection Hf as <-. apply (points_from_sorted refs 0).
Qed.

(** X4. A slot of the accumulator gives a break point exactly when its
    number is odd, at the offset one below its index and with its
    exception data; even and unset slots give none. *)
Theorem points_are_odd_slots (references : list iface) p :
  In p (collect_points references) <->
  exists i ref, references !! i = Some ref /\ Z.odd (numeric ref) = true /\
                p = {| value := Z.of_nat i - 1; data := data_of ref |}.
Proof.
  unfold collect_points. rewrite in_concat. split.
  - intros (l & Hl & Hp).
    apply list_elem_of_In, elem_of_lookup_imap in Hl as (i & ref & -> & Href).
    exists i, ref. split; [exact Href|].
    destruct (point_cases i ref) as [[Ho Hpt] | [_ Hpt]]; rewrite Hpt in Hp.
    + destruct Hp as [<-|[]]. auto.
    + destruct Hp.
  - intros (i & ref & Href & Ho & ->).
    exists (point i ref). split.
    + apply list_elem_of_In. apply elem_of_lookup_imap. eauto.
    + destruct (point_cases i ref) as [[_ ->] | [Ho' _]]; [left; reflexivity|].
      congruence.
Qed.

Lemma merge_total (references : list iface) idx v :
  idx < length references -> exists r, merge references idx v = Ok r.
Proof.
  intros Hlt. unfold merge, at_index.
  destruct (lookup_lt_is_Some_2 references idx Hlt) as [cur ->]. simpl.
  destruct (_ >? _)%Z; eauto.
Qed.

Lemma merge_values_total vals : forall (references : list iface) idx,
  idx + length vals <= length references ->
  exists r, merge_values references idx vals = Ok r.
Proof.
  induction vals as [|v vals IH]; intros references idx Hle; cbn [merge_values].
  - eauto.
  - cbn [length] in Hle.
    destruct (merge_total references idx v ltac:(lia)) as [r1 Hr1].
    rewrite Hr1. cbn [rbind]. apply IH.
    rewrite (merge_length _ _ _ _ Hr1). lia.
Qed.

Lemma foldM_total {A B} (P : A -> Prop) (f : A -> B -> result A) l :
  (forall a b, P a -> In b l -> exists a', f a b = Ok a' /\ P a') ->
  forall a, P a -> exists a', foldM f a l = Ok a'.
Proof.
  induction l as [|b l IH]; intros Hf a Ha; cbn [foldM]; [eauto|].
  destruct (Hf a b Ha (or_introl eq_refl)) as (a1 & -> & Ha1). cbn [rbind].
  apply IH; [|exact Ha1]. intros a0 b0 Ha0 Hb0. apply Hf; [exact Ha0 | right; exact Hb0].
Qed.

Lemma window_bytes pats (pw : gostring) (refs : list iface) i j :
  i <= j -> j <= length pw ->
  window pats pw refs (i, j) =
    match pats !! take (j - i) (drop i pw) with
    | Some pattern => merge_values refs (i + start pattern) (values pattern)
    | None => Ok refs
    end.
Proof.
  intros Hij Hj. unfold window. cbn [fst snd].
  rewrite subWord_bytes by assumption. reflexivity.
Qed.

Lemma scan_total pats maxlen word :
  fits pats -> exists references, scan pats maxlen word = Ok references.
Proof.
  intros Hfits. unfold scan.
  set (pw := pointed word). set (n := utf8.RuneCountInString pw).
  pose proof (RuneCount_le_length pw) as Hn. fold n in Hn.
  apply (foldM_total (fun r : list iface => length r = n + 1)).
  - intros refs [i j] Hlen Hin.
    apply in_windows in Hin as (H1 & H2 & H3 & H4).
    rewrite window_bytes by lia.
    destruct (pats !! take (j - i) (drop i pw)) as [e|] eqn:He.
    + specialize (Hfits _ _ He). rewrite length_take, length_drop in Hfits.
      destruct (merge_values_total (values e) refs (i + start e) ltac:(lia))
        as [r Hr].
      exists r. split; [exact Hr|].
      rewrite (merge_values_length _ _ _ _ Hr). exact Hlen.
    + eauto.
  - apply length_replicate.
Qed.

(** X5. On a dictionary whose entries all fit (the weights of an entry,
    shifted by its start, cover at most one slot more than its key has
    bytes), [Positions] returns normally for every word. *)
Theorem Positions_total hd word :
  fits (patterns hd) ->
  exists points hd', Positions hd word = Ok (points, hd').
Proof.
  intros Hfits. rewrite Positions_unfold.
  destruct (cache hd !! strings.ToLower word) as [pts|]; [eauto|].
  unfold fresh_points.
  destruct (scan_total (patterns hd) (maxlen hd) (strings.ToLower word) Hfits)
    as [refs ->].
  cbn [rbind]. eauto.
Qed.

(** X6. [byteIndex] returns the rune index it is given as long as it does
    not pass the length of the string in bytes, and panics beyond. *)
Theorem byteIndex_returns_its_argument (s : gostring) (runeIndex : nat) :
  byteIndex s runeIndex = if runeIndex <=? length s then Ok runeIndex else Panic.
Proof.
  destruct (Nat.leb_spec runeIndex (length s)).
  - apply byteIndex_identity. assumption.
  - apply byteIndex_panic. assumption.
Qed.

End EngineMore.

(** ** Further properties of the loader *)

Section LoaderMore.
Context `{Unicode}.

Lemma is_zero_eq v : is_zero v = true -> v = IInt 0.
Proof.
  destruct v as [|i|h]; simpl; try discriminate.
  intros Hi. apply Z.eqb_eq in Hi. congruence.
Qed.

Lemma all_zero_replicate (l : list iface) :
  (forall i v, l !! i = Some v -> is_zero v = true) ->
  l = replicate (length l) (IInt 0).
Proof.
  induction l as [|v l IH]; intros Hz; [reflexivity|].
  cbn [length replicate]. f_equal.
  - apply is_zero_eq. apply (Hz 0). reflexivity.
  - apply IH. intros i x Hx. apply (Hz (S i)). exact Hx.
Qed.

Lemma scan_end_spec_min before : forall e,
  Exists (fun v => is_zero v = false) before ->
  exists m v, scan_end before e = Ok (e - m) /\ before !! m = Some v /\
              is_zero v = false /\
              forall i v', i < m -> before !! i = Some v' -> is_zero v' = true.
Proof.
  induction before as [|v before IH]; intros e Hex; [inversion Hex|].
  cbn [scan_end]. destruct (is_zero v) eqn:Hz.
  - apply Exists_cons in Hex as [Hv | Hex]; [congruence|].
    destruct (IH (e - 1) Hex) as (m & v0 & Hs & Hm & Hv0 & Hmin).
    exists (S m), v0. rewrite Hs.
    split; [apply (f_equal Ok); lia|]. split; [exact Hm|]. split; [exact Hv0|].
    intros [|i] v' Hi Hv'; simpl in Hv'; [congruence|].
    apply (Hmin i v'); [lia | exact Hv'].
  - exists 0, v.
    split; [apply (f_equal Ok); lia|].
    split; [reflexivity|]. split; [exact Hz|]. intros; lia.
Qed.

(** What [store] does with a pattern that has a weight that counts. *)
Lemma store_shape st tags vals :
  hasNonZero vals = true ->
  exists e k,
    store st tags vals
      = Ok (<[strings.Join tags := e]> (fst st), Nat.max (snd st) (length tags)) /\
    vals = replicate (start e) (IInt 0) ++ values e ++ replicate k (IInt 0) /\
    values e <> [].
Proof.
  intros Hnz. unfold store. rewrite Hnz. cbn [negb].
  assert (Hex : Exists (fun v => is_zero v = false) vals).
  { unfold hasNonZero in Hnz. apply existsb_exists in Hnz as (v & Hin & Hs).
    apply Exists_exists. exists v. split; [apply list_elem_of_In; exact Hin|].
    apply signal_not_zero. exact Hs. }
  destruct (scan_start_spec vals 0 Hex) as (n & v & Hs & Hn & Hv & Hmin).
  assert (Hex' : Exists (fun v => is_zero v = false) (rev vals)).
  { apply Exists_exists in Hex as (x & Hx & Hzx). apply Exists_exists.
    exists x. split; [|exact Hzx].
    apply list_elem_of_In, in_rev. rewrite rev_involutive.
    apply list_elem_of_In. exact Hx. }
  destruct (scan_end_spec_min (rev vals) (length vals) Hex')
    as (m & v' & He & Hm & Hv' & Hmin').
  rewrite Hs, He. cbn [rbind Nat.add].
  pose proof (lookup_lt_Some _ _ _ Hm) as Hmlt. rewrite length_rev in Hmlt.
  rewrite rev_alt in Hm, Hmin'.
  change (rev_append vals []) with (reverse vals) in Hm, Hmin'.
  rewrite reverse_lookup in Hm by exact Hmlt.
  pose proof (lookup_lt_Some _ _ _ Hn) as Hnlt.
  assert (Hle : n <= length vals - S m).
  { destruct (Nat.le_gt_cases n (length vals - S m)) as [Hle|Hgt]; [exact Hle|].
    rewrite (Hmin _ _ Hgt Hm) in Hv'. discriminate. }
  rewrite slice_ok by lia. cbn [rbind].
  eexists _, m. split; [reflexivity|]. cbn [start values]. split.
  - rewrite <- (take_drop n vals) at 1. f_equal.
    + rewrite (all_zero_replicate (take n vals)) at 1.
      * rewrite length_take. f_equal. lia.
      * intros i x Hx. apply lookup_take_Some in Hx as [Hx Hi].
        apply (Hmin i x Hi Hx).
    + rewrite <- (take_drop (length vals - m - n) (drop n vals)) at 1. f_equal.
      rewrite drop_drop.
      rewrite (all_zero_replicate (drop (n + (length vals - m - n)) vals)) at 1.
      * rewrite length_drop. f_equal. lia.
      * intros i x Hx. rewrite lookup_drop in Hx.
        pose proof (lookup_lt_Some _ _ _ Hx) as Hlt.
        apply (Hmin' (length vals - S (n + (length vals - m - n) + i)) x); [lia|].
        rewrite reverse_lookup by lia. rewrite <- Hx. f_equal. lia.
  - intros Hnil. apply (f_equal length) in Hnil.
    rewrite length_take, length_drop in Hnil. simpl in Hnil. lia.
Qed.

Lemma store_skip st tags vals :
  hasNonZero vals = false -> store st tags vals = Ok st.
Proof. intros Hnz. unfold store. rewrite Hnz. reflexivity. Qed.

Lemma Split_nonempty (s : gostring) sep : strings.Split s sep <> [].
Proof.
  destruct s as [|c s]; simpl; [discriminate|].
  destruct (bool_decide (c = sep)); [discriminate|].
  destruct (strings.Split s sep); discriminate.
Qed.

Lemma Split_one_field (s : gostring) sep :
  (length (strings.Split s sep) <? 2) = negb (strings.Contains s sep).
Proof.
  induction s as [|c s IH]; [reflexivity|].
  unfold strings.Contains in *. cbn [strings.Split existsb].
  pose proof (Split_nonempty s sep) as Hne.
  destruct (bool_decide (c = sep)); cbn [orb negb].
  - destruct (strings.Split s sep) as [|h r]; [congruence | reflexivity].
  - destruct (strings.Split s sep) as [|h r]; [congruence|]. exact IH.
Qed.

Lemma SplitN2_contains (s : gostring) sep :
  strings.Contains s sep = true ->
  exists a b, strings.SplitN2 s sep = [a; b] /\ s = a ++ sep :: b /\ ~ In sep a.
Proof.
  unfold strings.Contains.
  induction s as [|c s IH]; cbn [existsb strings.SplitN2]; [discriminate|].
  destruct (bool_decide (c = sep)) eqn:Hc; cbn [orb].
  - intros _. apply bool_decide_eq_true in Hc as ->.
    exists [], s. split; [reflexivity|]. split; [reflexivity|]. intros [].
  - intros Hs. destruct (IH Hs) as (a & b & -> & -> & Hn).
    exists (c :: a), b. split; [reflexivity|]. split; [reflexivity|].
    apply bool_decide_eq_false in Hc. intros [Hin | Hin]; [congruence | tauto].
Qed.

Lemma newAlternativeParser_outcome pattern alternative :
  if length (strings.Split alternative ","%byte) <? 3
  then newAlternativeParser pattern alternative = Panic
  else exists ap, newAlternativeParser pattern alternative = Ok ap.
Proof.
  unfold newAlternativeParser, at_index.
  destruct (strings.Split alternative ","%byte) as [|a [|b [|c l]]];
    try reflexivity.
  cbn. eexists. reflexivity.
Qed.

Lemma split_alternative_outcome pattern :
  if strings.Contains pattern "/"%byte && strings.Contains pattern "="%byte
     && (length (strings.Split
                   (default [] (strings.SplitN2 pattern "/"%byte !! 1))
                   ","%byte) <? 3)
  then split_alternative pattern = Panic
  else exists pf, split_alternative pattern = Ok pf /\
         Some (fst pf) =
           if strings.Contains pattern "/"%byte
              && strings.Contains pattern "="%byte
           then strings.SplitN2 pattern "/"%byte !! 0
           else Some pattern.
Proof.
  unfold split_alternative.
  destruct (strings.Contains pattern "/"%byte) eqn:Hs; cbn [andb];
    [|eexists; split; reflexivity].
  destruct (strings.Contains pattern "="%byte) eqn:He; cbn [andb];
    [|eexists; split; reflexivity].
  destruct (SplitN2_contains _ _ Hs) as (a & b & -> & _ & _).
  cbn [at_index lookup list_lookup rbind default].
  change ([a; b] !! 0) with (Some a). change ([a; b] !! 1) with (Some b).
  cbn [rbind default].
  pose proof (newAlternativeParser_outcome a b) as Hn.
  change (id b) with b.
  destruct (length (strings.Split b ","%byte) <? 3).
  - rewrite Hn. reflexivity.
  - destruct Hn as [ap ->]. eexists. split; reflexivity.
Qed.

(** What one line does to the state of the loader. *)
Lemma load_line_outcome st line :
  if short_clause line then load_line st line = Panic
  else exists st', load_line st line = Ok st' /\
         (st' = st \/
          exists key e, produces line key e /\ base_pattern line <> None /\
            st' = (<[key := e]> (fst st),
                   Nat.max (snd st) (default 0 (stored_tokens line)))).
Proof.
  unfold short_clause, load_line, base_pattern, stored_tokens.
  destruct (effective line) as [pattern|] eqn:Heff;
    [|exists st; split; [reflexivity | left; reflexivity]].
  pose proof (split_alternative_outcome pattern) as Hsp.
  destruct (_ && _ && _).
  - rewrite Hsp. reflexivity.
  - destruct Hsp as (pf & Hpf & Hbase). rewrite Hpf. cbn [rbind].
    destruct (scan_pattern (fst pf) (snd pf)) as [tags vals] eqn:Hscan.
    destruct (hasNonZero vals) eqn:Hnz.
    + destruct (store_shape st tags vals Hnz) as (e & k & Hst & Hvals & Hne).
      eexists. split; [exact Hst|]. right.
      exists (strings.Join tags), e. split; [|split].
      * exists pattern, pf, k. rewrite Heff, Hscan. cbn [fst snd].
        repeat split; try reflexivity; assumption.
      * rewrite <- Hbase. discriminate.
      * reflexivity.
    + exists st. split; [apply store_skip; exact Hnz | left; reflexivity].
Qed.

Lemma foldM_load_outcome ls : forall st,
  if existsb short_clause ls then foldM load_line st ls = Panic
  else exists st', foldM load_line st ls = Ok st'.
Proof.
  induction ls as [|line ls IH]; intros st; cbn [existsb foldM];
    [eexists; reflexivity|].
  pose proof (load_line_outcome st line) as Hl.
  destruct (short_clause line); cbn [orb].
  - rewrite Hl. reflexivity.
  - destruct Hl as (st' & -> & _). cbn [rbind]. apply IH.
Qed.

(** Every entry of the state after the loop was there before it or comes
    from one of the lines. *)
Lemma foldM_load_origin ls : forall st st' key e,
  foldM load_line st ls = Ok st' ->
  fst st' !! key = Some e ->
  fst st !! key = Some e \/ exists line, In line ls /\ produces line key e.
Proof.
  induction ls as [|line ls IH]; intros st st' key e; cbn [foldM].
  - intros [= <-] Hk. left. exact Hk.
  - pose proof (load_line_outcome st line) as Hl.
    destruct (short_clause line); [rewrite Hl; discriminate|].
    destruct Hl as (st1 & -> & Hst1). cbn [rbind]. intros Hf Hk.
    destruct (IH _ _ _ _ Hf Hk) as [Hin | (l & Hl & Hp)];
      [|right; exists l; split; [right; exact Hl | exact Hp]].
    destruct Hst1 as [-> | (key' & e' & Hp & _ & ->)]; [left; exact Hin|].
    cbn [fst] in Hin.
    destruct (decide (key' = key)) as [->|Hne].
    + rewrite lookup_insert in Hin. 
      right. exists line. split; [left; reflexivity|].
      destruct (decide (key = key)); [|congruence].
      injection Hin as <-. exact Hp.
    + rewrite lookup_insert_ne in Hin by exact Hne. left. exact Hin.
Qed.

(** X7: the loader returns an error for exactly two reasons, a file that
    cannot be read and a text without a line feed; no line of a
    dictionary makes it return one. *)
Theorem NewHyphDict_error file :
  NewHyphDict file = Err <->
  file = None \/ exists data, file = Some data /\ ~ In "010"%byte data.
Proof.
  destruct file as [data|]; [|split; [left; reflexivity | reflexivity]].
  rewrite NewHyphDict_unfold.
  pose proof (Split_one_field data "010"%byte) as Hone.
  pose proof (foldM_load_outcome (pattern_lines data) (∅, 0)) as Hl.
  assert (Hc : strings.Contains data "010"%byte = true <-> In "010"%byte data).
  { unfold strings.Contains. rewrite existsb_exists. split.
    - intros (c & Hin & Hc). apply bool_decide_eq_true in Hc as ->. exact Hin.
    - intros Hin. eexists. split; [exact Hin|].
      apply bool_decide_eq_true. reflexivity. }
  split.
  - intros He. right. exists data. split; [reflexivity|].
    intros Hin. apply Hc in Hin. rewrite Hin in Hone. cbn [negb] in Hone.
    rewrite Hone in He.
    destruct (existsb short_clause (pattern_lines data)).
    + rewrite Hl in He. discriminate.
    + destruct Hl as [st' Hst']. rewrite Hst' in He. discriminate.
  - intros [Hf | (d & [= <-] & Hn)]; [discriminate|].
    destruct (strings.Contains data "010"%byte) eqn:Hd;
      [exfalso; apply Hn, Hc; reflexivity|].
    rewrite Hone. reflexivity.
Qed.

(** X8: the loader panics exactly when the text has a line feed and one of
    the pattern lines has an exception clause of fewer than three
    fields. *)
Theorem NewHyphDict_panics_iff data :
  NewHyphDict (Some data) = Panic <->
  In "010"%byte data /\
  exists line, In line (pattern_lines data) /\ short_clause line = true.
Proof.
  rewrite NewHyphDict_unfold.
  pose proof (Split_one_field data "010"%byte) as Hone.
  pose proof (foldM_load_outcome (pattern_lines data) (∅, 0)) as Hl.
  assert (Hc : strings.Contains data "010"%byte = true <-> In "010"%byte data).
  { unfold strings.Contains. rewrite existsb_exists. split.
    - intros (c & Hin & Hc). apply bool_decide_eq_true in Hc as ->. exact Hin.
    - intros Hin. eexists. split; [exact Hin|].
      apply bool_decide_eq_true. reflexivity. }
  rewrite Hone. rewrite <- Hc, <- existsb_exists.
  destruct (strings.Contains data "010"%byte); cbn [negb].
  - destruct (existsb short_clause (pattern_lines data)).
    + rewrite Hl. tauto.
    + destruct Hl as [st' ->]. cbn [rbind].
      split; [discriminate | intros [_ Hf]; discriminate].
  - split; [discriminate | intros [Hf _]; discriminate].
Qed.

(** X9: every stored entry is what one line of the file gives: its key
    joins the tags of the line, and its weights are the weights of the
    line without the zeros at both ends, [start] counting those removed
    on the left. *)
Theorem stored_entry_origin data hd key e :
  NewHyphDict (Some data) = Ok hd ->
  patterns hd !! key = Some e ->
  exists line, In line (pattern_lines data) /\ produces line key e.
Proof.
  rewrite NewHyphDict_unfold.
  destruct (_ <? 2); [discriminate|].
  destruct (foldM load_line (∅, 0) (pattern_lines data)) as [st| |] eqn:Hf;
    cbn [rbind]; try discriminate.
  intros [= <-]. cbn [patterns]. intros Hk.
  destruct (foldM_load_origin _ _ _ _ _ Hf Hk) as [Hin | Hl]; [|exact Hl].
  cbn [fst] in Hin. rewrite lookup_empty in Hin. discriminate.
Qed.

(** *** The tokens of a pattern *)

Lemma cont_nondigit b : utf8.cont b = true -> nondigit b = true.
Proof.
  unfold utf8.cont, nondigit, is_digit, in_range.
  intros Hc. apply andb_true_iff in Hc as [H1 _]. apply N.leb_le in H1.
  apply negb_true_iff, andb_false_iff. right. apply N.leb_gt. lia.
Qed.

Lemma rune_nondigit c t :
  nondigit c = true ->
  filter (fun b => nondigit b = true)
         (take (utf8.width (c :: t)) (c :: t))
    = take (utf8.width (c :: t)) (c :: t).
Proof.
  intros Hc.
  assert (Hall : Forall (fun b => nondigit b = true)
                        (take (utf8.width (c :: t)) (c :: t))).
  { destruct (width_cases c t) as [-> | (pre & post & -> & -> & _ & Hpre)].
    - cbn [take]. rewrite take_0. constructor; [exact Hc | constructor].
    - cbn [take]. rewrite take_app_length. constructor; [exact Hc|].
      eapply Forall_impl; [exact Hpre|]. apply cont_nondigit. }
  revert Hall. generalize (take (utf8.width (c :: t)) (c :: t)).
  induction 1 as [|b l Hb Hl IH]; [reflexivity|].
  rewrite filter_cons_True by exact Hb. f_equal. exact IH.
Qed.

Lemma filter_rune c t :
  nondigit c = true ->
  filter (fun b => nondigit b = true) (c :: t)
    = take (utf8.width (c :: t)) (c :: t)
      ++ filter (fun b => nondigit b = true)
                (drop (utf8.width (c :: t)) (c :: t)).
Proof.
  intros Hc.
  rewrite <- (take_drop (utf8.width (c :: t)) (c :: t)) at 1.
  rewrite filter_app, rune_nondigit by exact Hc. reflexivity.
Qed.

Lemma tokens_join fuel : forall s,
  length s <= fuel ->
  concat (map snd (regexp.tokens fuel s)) = filter (fun b => nondigit b = true) s.
Proof.
  induction fuel as [|fuel IH]; intros s Hlen.
  - destruct s; [reflexivity | simpl in Hlen; lia].
  - destruct s as [|c t]; [reflexivity|]. cbn [regexp.tokens].
    cbn [length] in Hlen.
    destruct (is_digit c) eqn:Hc.
    + rewrite filter_cons_False by (unfold nondigit; rewrite Hc; discriminate).
      destruct t as [|d t']; [reflexivity|].
      destruct (is_digit d) eqn:Hd.
      * cbn [map concat snd app]. apply IH. lia.
      * cbn [map concat snd].
        rewrite IH by (rewrite length_drop; lia).
        symmetry. apply filter_rune. unfold nondigit. rewrite Hd. reflexivity.
    + cbn [map concat snd].
      rewrite IH.
      * symmetry. apply filter_rune. unfold nondigit. rewrite Hc. reflexivity.
      * pose proof (width_bounds (c :: t) ltac:(discriminate)) as Hw.
        rewrite length_drop. cbn [length] in *. lia.
Qed.

Lemma digit_pair_drop n : forall s,
  digit_pair s = false -> digit_pair (drop n s) = false.
Proof.
  induction n as [|n IH]; intros s Hs; [exact Hs|].
  destruct s as [|c t]; [reflexivity|]. cbn [drop]. apply IH.
  destruct t as [|d t']; [reflexivity|].
  cbn [digit_pair] in Hs. apply orb_false_iff in Hs as [_ Hs]. exact Hs.
Qed.

Lemma tokens_count fuel : forall s,
  length s <= fuel -> digit_pair s = false ->
  length (regexp.tokens fuel s)
    <= length (filter (fun b => nondigit b = true) s) + 1.
Proof.
  induction fuel as [|fuel IH]; intros s Hlen Hdp; [simpl; lia|].
  destruct s as [|c t]; [simpl; lia|]. cbn [regexp.tokens].
  cbn [length] in Hlen.
  destruct (is_digit c) eqn:Hc.
  - rewrite filter_cons_False by (unfold nondigit; rewrite Hc; discriminate).
    destruct t as [|d t']; [simpl; lia|].
    change (digit_pair (c :: d :: t'))
      with ((is_digit c && is_digit d) || digit_pair (d :: t')) in Hdp.
    apply orb_false_iff in Hdp as [Hcd Hdp]. rewrite Hc in Hcd.
    destruct (is_digit d) eqn:Hd; [discriminate|].
    rewrite filter_rune by (unfold nondigit; rewrite Hd; reflexivity).
    cbn [length]. rewrite length_app, length_take.
    pose proof (width_bounds (d :: t')) as Hw.
    assert (d :: t' <> []) as Hne by discriminate. specialize (Hw Hne).
    pose proof (IH (drop (utf8.width (d :: t')) (d :: t'))) as Hi.
    rewrite length_drop in Hi.
    specialize (Hi ltac:(lia) (digit_pair_drop _ _ Hdp)). lia.
  - rewrite filter_rune by (unfold nondigit; rewrite Hc; reflexivity).
    cbn [length]. rewrite length_app, length_take.
    pose proof (width_bounds (c :: t)) as Hw.
    assert (c :: t <> []) as Hne by discriminate. specialize (Hw Hne).
    pose proof (IH (drop (utf8.width (c :: t)) (c :: t))) as Hi.
    rewrite length_drop in Hi. cbn [length] in *.
    specialize (Hi ltac:(lia) (digit_pair_drop _ _ Hdp)). lia.
Qed.

Lemma tokens_digit fuel : forall s,
  Forall (fun t => fst t = [] \/ exists d, fst t = [d] /\ is_digit d = true)
         (regexp.tokens fuel s).
Proof.
  induction fuel as [|fuel IH]; intros s; [constructor|].
  destruct s as [|c t]; [constructor|]. cbn [regexp.tokens].
  destruct (is_digit c) eqn:Hc.
  - destruct t as [|d t'].
    + constructor; [right; eauto | constructor].
    + destruct (is_digit d); (constructor; [right; eauto | apply IH]).
  - constructor; [left; reflexivity | apply IH].
Qed.

Lemma atoi_digit (i : gostring) :
  i = [] \/ (exists d, i = [d] /\ is_digit d = true) -> (0 <= atoi i <= 9)%Z.
Proof.
  intros [-> | (d & -> & Hd)]; [vm_compute; split; discriminate|].
  revert Hd. destruct d; vm_compute; intros Hd; try discriminate;
    split; discriminate.
Qed.

Lemma collect_numeric ms : forall f,
  map numeric (snd (collect f ms)) = map (fun t => atoi (fst t)) ms.
Proof.
  induction ms as [|[i s0] ms IH]; intros f; [reflexivity|].
  cbn [collect]. destruct (apply_factory f (atoi i)) as [f' v] eqn:Hf.
  specialize (IH f'). destruct (collect f' ms) as [tags vals].
  cbn [snd map fst] in *. f_equal; [|exact IH].
  destruct f as [ap|]; cbn [apply_factory Parse] in Hf.
  - injection Hf as _ <-. destruct (Z.land (atoi i) 1 =? 1)%Z; reflexivity.
  - injection Hf as _ <-. reflexivity.
Qed.

Lemma collect_three_fields ms : forall f,
  Forall three_fields (snd (collect f ms)).
Proof.
  induction ms as [|[i s0] ms IH]; intros f; [constructor|].
  cbn [collect]. destruct (apply_factory f (atoi i)) as [f' v] eqn:Hf.
  specialize (IH f'). destruct (collect f' ms) as [tags vals].
  cbn [snd] in *. constructor; [|exact IH].
  destruct f as [ap|]; cbn [apply_factory Parse] in Hf.
  - injection Hf as _ <-. destruct (Z.land (atoi i) 1 =? 1)%Z; cbn; eauto.
  - injection Hf as _ <-. exact I.
Qed.

Lemma collect_length ms : forall f, length (snd (collect f ms)) = length ms.
Proof.
  intros f. rewrite <- (length_map numeric), collect_numeric.
  apply length_map.
Qed.

(** The key of a pattern is the pattern without its decimal digits. *)
Lemma scan_pattern_key pattern f :
  strings.Join (fst (scan_pattern pattern f))
    = filter (fun b => nondigit b = true) pattern.
Proof.
  unfold scan_pattern, strings.Join. rewrite collect_tags.
  destruct pattern as [|c t]; [reflexivity|].
  unfold regexp.FindAllStringSubmatch. apply tokens_join. reflexivity.
Qed.

Lemma scan_pattern_one_digit pattern f :
  Forall one_digit (snd (scan_pattern pattern f)).
Proof.
  unfold scan_pattern, one_digit.
  apply Forall_map with (f := numeric) (P := fun z => (0 <= z <= 9)%Z).
  rewrite collect_numeric.
  apply Forall_map with (f := fun t : gostring * gostring => atoi (fst t)).
  assert (Ht : Forall (fun t : gostring * gostring =>
                         fst t = [] \/ exists d, fst t = [d] /\ is_digit d = true)
                      (regexp.FindAllStringSubmatch pattern)).
  { destruct pattern as [|c t]; [|apply tokens_digit].
    constructor; [left; reflexivity | constructor]. }
  eapply Forall_impl; [exact Ht|]. intros t. apply atoi_digit.
Qed.

Lemma scan_pattern_room pattern f :
  digit_pair pattern = false ->
  length (snd (scan_pattern pattern f))
    <= length (strings.Join (fst (scan_pattern pattern f))) + 1.
Proof.
  intros Hdp. rewrite scan_pattern_key.
  unfold scan_pattern. rewrite collect_length.
  destruct pattern as [|c t]; [simpl; lia|].
  unfold regexp.FindAllStringSubmatch. apply tokens_count; [reflexivity|exact Hdp].
Qed.

(** The line behind an entry, in terms of its base pattern. *)
Lemma produces_base line key e :
  produces line key e ->
  exists pattern f k,
    base_pattern line = Some pattern /\
    key = strings.Join (fst (scan_pattern pattern f)) /\
    snd (scan_pattern pattern f)
      = replicate (start e) (IInt 0) ++ values e ++ replicate k (IInt 0) /\
    values e <> [].
Proof.
  intros (p0 & pf & k & Heff & Hsp & Hkey & Hvals & Hne).
  exists (fst pf), (snd pf), k. split; [|auto].
  unfold base_pattern. rewrite Heff.
  pose proof (split_alternative_outcome p0) as Ho.
  destruct (_ && _ && _); [congruence|].
  destruct Ho as (pf' & Hpf' & Hbase). congruence.
Qed.

Lemma sublist_Forall {A} (P : A -> Prop) (l1 l2 l3 : list A) :
  Forall P (l1 ++ l2 ++ l3) -> Forall P l2.
Proof.
  intros Hall. apply Forall_app in Hall as [_ Hall].
  apply Forall_app in Hall as [Hall _]. exact Hall.
Qed.

(** X10: the key of every stored entry is the base pattern of a line of
    the file with the decimal digits taken out. *)
Theorem stored_key_is_pattern_without_digits data hd key e :
  NewHyphDict (Some data) = Ok hd ->
  patterns hd !! key = Some e ->
  exists line pattern,
    In line (pattern_lines data) /\ base_pattern line = Some pattern /\
    key = filter (fun b => nondigit b = true) pattern.
Proof.
  rewrite NewHyphDict_unfold.
  destruct (_ <? 2); [discriminate|].
  destruct (foldM load_line (∅, 0) (pattern_lines data)) as [st| |] eqn:Hf;
    cbn [rbind]; try discriminate.
  intros [= <-]. cbn [patterns]. intros Hk.
  destruct (foldM_load_origin _ _ _ _ _ Hf Hk) as [Hin | (line & Hl & Hp)].
  { cbn [fst] in Hin. rewrite lookup_empty in Hin. discriminate. }
  destruct (produces_base _ _ _ Hp) as (p & f & k & Hb & -> & _ & _).
  exists line, p. split; [exact Hl|]. split; [exact Hb|].
  apply scan_pattern_key.
Qed.

(** X11: every weight the loader stores is a number from 0 to 9, and a
    weight with exception data carries exactly three strings. *)
Theorem stored_weights_are_digits file hd key e :
  NewHyphDict file = Ok hd ->
  patterns hd !! key = Some e ->
  Forall (fun v => one_digit v /\ three_fields v) (values e).
Proof.
  destruct file as [data|]; [|discriminate].
  rewrite NewHyphDict_unfold.
  destruct (_ <? 2); [discriminate|].
  destruct (foldM load_line (∅, 0) (pattern_lines data)) as [st| |] eqn:Hf;
    cbn [rbind]; try discriminate.
  intros [= <-]. cbn [patterns]. intros Hk.
  destruct (foldM_load_origin _ _ _ _ _ Hf Hk) as [Hin | (line & Hl & Hp)].
  { cbn [fst] in Hin. rewrite lookup_empty in Hin. discriminate. }
  destruct (produces_base _ _ _ Hp) as (p & f & k & _ & _ & Hv & _).
  apply Forall_and. split.
  - eapply sublist_Forall. rewrite <- Hv. apply scan_pattern_one_digit.
  - eapply sublist_Forall. rewrite <- Hv. apply collect_three_fields.
Qed.

(** *** From the file to the positions *)

Lemma origin_fits data hd :
  NewHyphDict (Some data) = Ok hd ->
  (forall line pattern,
     In line (pattern_lines data) -> base_pattern line = Some pattern ->
     digit_pair pattern = false) ->
  fits (patterns hd).
Proof.
  rewrite NewHyphDict_unfold.
  destruct (_ <? 2); [discriminate|].
  destruct (foldM load_line (∅, 0) (pattern_lines data)) as [st| |] eqn:Hf;
    cbn [rbind]; try discriminate.
  intros [= <-] Hfree key e. cbn [patterns]. intros Hk.
  destruct (foldM_load_origin _ _ _ _ _ Hf Hk) as [Hin | (line & Hl & Hp)].
  { cbn [fst] in Hin. rewrite lookup_empty in Hin. discriminate. }
  destruct (produces_base _ _ _ Hp) as (p & f & k & Hb & -> & Hv & _).
  pose proof (scan_pattern_room p f (Hfree _ _ Hl Hb)) as Hroom.
  rewrite Hv in Hroom. rewrite !length_app, !length_replicate in Hroom.
  unfold gostring in *. lia.
Qed.

Lemma reachable_origin hd :
  reachable hd ->
  exists file hd0, NewHyphDict file = Ok hd0 /\ patterns hd = patterns hd0 /\
                   maxlen hd = maxlen hd0.
Proof.
  induction 1 as [file hd Hnew | hd word points hd' _ IH Hpos].
  - exists file, hd. auto.
  - destruct IH as (file & hd0 & Hnew & Hp & Hm).
    destruct (Positions_preserves _ _ _ _ Hpos) as (Hp' & Hm' & _).
    exists file, hd0. split; [exact Hnew|]. split; congruence.
Qed.

Lemma merge_three_fields (references r : list iface) idx v :
  Forall three_fields references -> three_fields v ->
  merge references idx v = Ok r -> Forall three_fields r.
Proof.
  intros Hrefs Hv. unfold merge, at_index.
  destruct (references !! idx) as [cur|] eqn:Hcur; cbn [rbind]; [|discriminate].
  destruct (_ >? _)%Z; intros [= <-]; [|exact Hrefs].
  apply Forall_insert; [exact Hrefs|].
  destruct v as [|i|h]; cbn [data_of]; try exact I.
  cbn [three_fields] in Hv. destruct Hv as (a & b & c & ->).
  cbn. eauto.
Qed.

Lemma merge_values_three_fields vals : forall (references r : list iface) idx,
  Forall three_fields references -> Forall three_fields vals ->
  merge_values references idx vals = Ok r -> Forall three_fields r.
Proof.
  induction vals as [|v vals IH]; intros references r idx Hrefs Hvals;
    cbn [merge_values].
  - intros [= <-]. exact Hrefs.
  - apply Forall_cons in Hvals as [Hv Hvals].
    destruct (merge references idx v) as [r1| |] eqn:Hm; cbn [rbind];
      try discriminate.
    apply IH; [|exact Hvals]. exact (merge_three_fields _ _ _ _ Hrefs Hv Hm).
Qed.

Lemma scan_three_fields pats maxlen word references :
  (forall key e, pats !! key = Some e -> Forall three_fields (values e)) ->
  scan pats maxlen word = Ok references -> Forall three_fields references.
Proof.
  intros Hpats. unfold scan.
  apply (foldM_invariant (Forall three_fields)).
  - intros a ij a' Ha. unfold window.
    destruct (subWord _ _ _) as [sub| |]; cbn [rbind]; try discriminate.
    destruct (pats !! sub) as [pattern|] eqn:Hsub.
    + apply merge_values_three_fields; [exact Ha|]. eapply Hpats. exact Hsub.
    + intros [= <-]. exact Ha.
  - apply Forall_replicate. exact I.
Qed.

Lemma stored_three_fields file hd key e :
  NewHyphDict file = Ok hd ->
  patterns hd !! key = Some e ->
  Forall three_fields (values e).
Proof.
  destruct file as [data|]; [|discriminate].
  rewrite NewHyphDict_unfold.
  destruct (_ <? 2); [discriminate|].
  destruct (foldM load_line (∅, 0) (pattern_lines data)) as [st| |] eqn:Hf;
    cbn [rbind]; try discriminate.
  intros [= <-]. cbn [patterns]. intros Hk.
  destruct (foldM_load_origin _ _ _ _ _ Hf Hk) as [Hin | (line & Hl & Hp)].
  { cbn [fst] in Hin. rewrite lookup_empty in Hin. discriminate. }
  destruct (produces_base _ _ _ Hp) as (p & f & k & _ & _ & Hv & _).
  eapply sublist_Forall. rewrite <- Hv. apply collect_three_fields.
Qed.

(** X12: when no base pattern of the file has two decimal digits in a
    row, every entry fits its key and [Positions] returns normally for
    every word, whatever the cache holds. *)
Theorem digit_pairs_free_never_panics data hd :
  NewHyphDict (Some data) = Ok hd ->
  (forall line pattern,
     In line (pattern_lines data) -> base_pattern line = Some pattern ->
     digit_pair pattern = false) ->
  fits (patterns hd) /\
  forall hd' word, patterns hd' = patterns hd ->
                   exists points hd'', Positions hd' word = Ok (points, hd'').
Proof.
  intros Hnew Hfree.
  pose proof (origin_fits _ _ Hnew Hfree) as Hfits.
  split; [exact Hfits|]. intros hd' word Hp.
  rewrite Positions_unfold.
  destruct (cache hd' !! strings.ToLower word) as [pts|]; [eauto|].
  unfold fresh_points. rewrite <- Hp in Hfits.
  destruct (scan_total (patterns hd') (maxlen hd') (strings.ToLower word) Hfits)
    as [refs ->].
  cbn [rbind]. eauto.
Qed.

(** X13: the exception data of a point [Positions] returns is nil or
    holds exactly three strings. *)
Theorem points_data_three_strings hd word points hd' :
  reachable hd ->
  Positions hd word = Ok (points, hd') ->
  Forall (fun p => data p = None \/ exists a b c, data p = Some [a; b; c])
         points.
Proof.
  intros Hreach Hpos.
  pose proof (Positions_fresh hd word (reachable_cache_ok _ Hreach)) as Hfresh.
  rewrite Hpos in Hfresh. cbn in Hfresh. symmetry in Hfresh.
  unfold fresh_points in Hfresh.
  destruct (scan _ _ _) as [refs| |] eqn:Hscan; cbn [rbind] in Hfresh;
    try discriminate.
  injection Hfresh as <-.
  destruct (reachable_origin _ Hreach) as (file & hd0 & Hnew & Hp & _).
  assert (Hrefs : Forall three_fields refs).
  { eapply scan_three_fields; [|exact Hscan].
    intros key e Hk. rewrite Hp in Hk.
    apply (stored_three_fields file hd0 key e Hnew Hk). }
  apply Forall_forall. intros p Hin.
  apply list_elem_of_In in Hin.
  destruct (in_collect_points _ _ Hin) as (i & ref & Hi & _ & _ & ->).
  pose proof (proj1 (Forall_lookup _ _) Hrefs i ref Hi) as Hr.
  destruct ref as [|z|h]; cbn [data_of]; [left; reflexivity ..|].
  right. exact Hr.
Qed.

End LoaderMore.

(** ** Properties of the language registry *)

Section RegistryProperties.
Context `{Unicode}.
Variable range_keys : gmap gostring gostring -> list gostring.

(** *** The order of the names *)

Lemma code_inj x y : code x = code y -> x = y.
Proof.
  unfold code. intros Hxy.
  pose proof (Byte.of_to_N x) as Hx. pose proof (Byte.of_to_N y) as Hy.
  rewrite Hxy in Hx. congruence.
Qed.

Lemma string_lt_irrefl a : string_lt a a = false.
Proof.
  induction a as [|x a IH]; [reflexivity|]. cbn [string_lt].
  rewrite N.ltb_irrefl, N.eqb_refl, IH. reflexivity.
Qed.

Lemma string_lt_trans a : forall b c,
  string_lt a b = true -> string_lt b c = true -> string_lt a c = true.
Proof.
  induction a as [|x a IH]; intros [|y b] [|z c]; cbn [string_lt];
    try discriminate; try reflexivity.
  intros Hab Hbc.
  apply orb_true_iff in Hab as [Hxy | Hab];
    apply orb_true_iff in Hbc as [Hyz | Hbc]; apply orb_true_iff.
  - left. apply N.ltb_lt in Hxy, Hyz. apply N.ltb_lt. lia.
  - apply andb_true_iff in Hbc as [Hyz _]. apply N.eqb_eq in Hyz.
    left. rewrite <- Hyz. exact Hxy.
  - apply andb_true_iff in Hab as [Hxy _]. apply N.eqb_eq in Hxy.
    left. rewrite Hxy. exact Hyz.
  - apply andb_true_iff in Hab as [Hxy Hab].
    apply andb_true_iff in Hbc as [Hyz Hbc].
    apply N.eqb_eq in Hxy, Hyz. right. apply andb_true_iff. split.
    + apply N.eqb_eq. congruence.
    + eapply IH; eassumption.
Qed.

Lemma string_lt_total a : forall b,
  string_lt a b = false -> string_lt b a = false -> a = b.
Proof.
  induction a as [|x a IH]; intros [|y b]; cbn [string_lt];
    try discriminate; try reflexivity.
  intros Hab Hba.
  apply orb_false_iff in Hab as [Hxy Hab].
  apply orb_false_iff in Hba as [Hyx Hba].
  apply N.ltb_ge in Hxy, Hyx.
  assert (Hc : code x = code y) by lia.
  rewrite Hc, N.eqb_refl in Hab, Hba. cbn [andb] in Hab, Hba.
  f_equal; [apply code_inj; exact Hc | apply IH; assumption].
Qed.

Lemma insert_name_In x l y : In y (insert_name x l) <-> y = x \/ In y l.
Proof.
  induction l as [|z l IH]; cbn [insert_name].
  - simpl. intuition.
  - destruct (string_lt x z); simpl; [intuition|].
    rewrite IH. intuition.
Qed.

Lemma sort_names_In l y : In y (sort_names l) <-> In y l.
Proof.
  induction l as [|x l IH]; [reflexivity|].
  cbn [sort_names foldr]. rewrite insert_name_In.
  change (foldr insert_name [] l) with (sort_names l). rewrite IH.
  simpl. intuition.
Qed.

Lemma insert_name_sorted x l :
  StronglySorted (fun a b => string_lt b a = false) l ->
  StronglySorted (fun a b => string_lt b a = false) (insert_name x l).
Proof.
  induction 1 as [|z l Hl IH Hz]; cbn [insert_name].
  - constructor; constructor.
  - destruct (string_lt x z) eqn:Hxz.
    + constructor; [constructor; assumption|].
      constructor.
      * destruct (string_lt z x) eqn:Hzx; [|reflexivity].
        pose proof (string_lt_trans _ _ _ Hxz Hzx) as Hxx.
        rewrite string_lt_irrefl in Hxx. discriminate.
      * eapply Forall_impl; [exact Hz|]. cbn beta. intros w Hwz.
        destruct (string_lt w x) eqn:Hwx; [|reflexivity].
        rewrite (string_lt_trans _ _ _ Hwx Hxz) in Hwz. discriminate.
    + constructor; [exact IH|].
      apply Forall_forall. intros w Hw.
      apply list_elem_of_In, insert_name_In in Hw as [-> | Hw]; [exact Hxz|].
      apply (proj1 (Forall_forall _ _) Hz). apply list_elem_of_In. exact Hw.
Qed.

Lemma sort_names_sorted l :
  StronglySorted (fun a b => string_lt b a = false) (sort_names l).
Proof.
  induction l as [|x l IH]; [constructor|].
  cbn [sort_names foldr]. apply insert_name_sorted. exact IH.
Qed.

Lemma sorted_split (l1 : list gostring) e l2 :
  StronglySorted (fun a b => string_lt b a = false) (l1 ++ e :: l2) ->
  forall x, In x l2 -> string_lt x e = false.
Proof.
  induction l1 as [|z l1 IH]; cbn [app]; intros Hs x Hx.
  - apply StronglySorted_inv in Hs as [_ Hall].
    apply (proj1 (Forall_forall _ _) Hall). apply list_elem_of_In. exact Hx.
  - apply StronglySorted_inv in Hs as [Hs _]. exact (IH Hs x Hx).
Qed.

(** *** The first loop of [populateLanguages] *)

Lemma language_of_outcome entryName :
  language_of entryName =
    if HasSuffix entryName (str ".dic") then
      if 9 <=? length entryName then
        let name := take (length entryName - 9) (drop 5 entryName) in
        Ok (Some (hd [] (strings.Split name "_"%byte),
                  str "dictionaries/" ++ name ++ str ".txt"))
      else Panic
    else Ok None.
Proof.
  unfold language_of. destruct (HasSuffix entryName (str ".dic")); [|reflexivity].
  unfold slice.
  destruct (Nat.leb_spec 9 (length entryName)) as [Hlen | Hlen].
  - rewrite (proj2 (Nat.leb_le 5 (length entryName - 4))) by lia.
    rewrite (proj2 (Nat.leb_le (length entryName - 4) (length entryName))) by lia.
    cbn [andb rbind].
    replace (length entryName - 4 - 5) with (length entryName - 9) by lia.
    pose proof (Split_nonempty
                  (take (length entryName - 9) (drop 5 entryName)) "_"%byte) as Hne.
    unfold at_index.
    destruct (strings.Split _ _) as [|h r]; [congruence|]. reflexivity.
  - rewrite (proj2 (Nat.leb_gt 5 (length entryName - 4))) by lia. reflexivity.
Qed.

Lemma language_of_panics entryName :
  language_of entryName = Panic <->
  HasSuffix entryName (str ".dic") = true /\ length entryName < 9.
Proof.
  rewrite language_of_outcome.
  destruct (HasSuffix entryName (str ".dic")).
  - destruct (Nat.leb_spec 9 (length entryName)); cbn zeta.
    + split; [discriminate | lia].
    + split; [intros _; split; [reflexivity | lia] | reflexivity].
  - split; [discriminate | intros [Hf _]; discriminate].
Qed.

Lemma language_of_not_Err entryName : language_of entryName <> Err.
Proof.
  rewrite language_of_outcome.
  destruct (HasSuffix _ _); [|discriminate].
  destruct (9 <=? _); discriminate.
Qed.

Lemma register_outcome langs b :
  (language_of b = Panic /\ register langs b = Panic) \/
  (language_of b <> Panic /\ exists langs1, register langs b = Ok langs1).
Proof.
  unfold register.
  destruct (language_of b) as [[[sn pa]|]| |] eqn:Hb; cbn [rbind].
  - right. split; [discriminate|]. destruct (langs !! sn); eauto.
  - right. split; [discriminate | eauto].
  - exfalso. exact (language_of_not_Err _ Hb).
  - left. split; reflexivity.
Qed.

Lemma foldM_register_outcome l : forall langs,
  (foldM register langs l = Panic /\
   exists e, In e l /\ language_of e = Panic) \/
  ((exists langs', foldM register langs l = Ok langs') /\
   forall e, In e l -> language_of e <> Panic).
Proof.
  induction l as [|b l IH]; intros langs; cbn [foldM].
  - right. split; [eauto | intros e []].
  - destruct (register_outcome langs b) as [[Hb ->] | [Hb [langs1 ->]]];
      cbn [rbind].
    + left. split; [reflexivity|]. exists b. split; [left; reflexivity | exact Hb].
    + destruct (IH langs1) as [(Hp & e & He & Hpe) | (Hok & Hall)].
      * left. split; [exact Hp|]. exists e. split; [right; exact He | exact Hpe].
      * right. split; [exact Hok|]. intros e [<- | He]; [exact Hb | auto].
Qed.

Lemma foldM_register_lookup l : forall langs langs' short,
  foldM register langs l = Ok langs' ->
  langs' !! short =
    match langs !! short with
    | Some p => Some p
    | None => first_language l short
    end.
Proof.
  induction l as [|b l IH]; intros langs langs' short; cbn [foldM first_language].
  - intros [= <-]. destruct (langs !! short); reflexivity.
  - unfold register at 1.
    destruct (language_of b) as [[[s p]|]| |] eqn:Hb; cbn [rbind];
      try discriminate.
    + destruct (langs !! s) as [p0|] eqn:Hs; cbn [rbind]; intros Hf.
      * rewrite (IH _ _ short Hf).
        destruct (bool_decide (s = short)) eqn:Hd; [|reflexivity].
        apply bool_decide_eq_true in Hd as <-. rewrite Hs. reflexivity.
      * rewrite (IH _ _ short Hf).
        destruct (bool_decide (s = short)) eqn:Hd.
        -- apply bool_decide_eq_true in Hd as <-.
           rewrite lookup_insert_eq, Hs. reflexivity.
        -- apply bool_decide_eq_false in Hd.
           rewrite lookup_insert_ne by exact Hd. reflexivity.
    + intros Hf. apply (IH _ _ short Hf).
Qed.

Lemma first_language_Some l short path :
  first_language l short = Some path ->
  exists l1 e l2, l = l1 ++ e :: l2 /\ language_of e = Ok (Some (short, path)) /\
    forall x p, In x l1 -> language_of x <> Ok (Some (short, p)).
Proof.
  induction l as [|b l IH]; cbn [first_language]; [discriminate|].
  intros Hf.
  assert (Hcase : (language_of b = Ok (Some (short, path))) \/
                  ((forall p, language_of b <> Ok (Some (short, p))) /\
                   first_language l short = Some path)).
  { destruct (language_of b) as [[[s p]|]| |]; try (right; split; [discriminate|exact Hf]).
    destruct (bool_decide (s = short)) eqn:Hd.
    - apply bool_decide_eq_true in Hd as <-. left. congruence.
    - apply bool_decide_eq_false in Hd. right. split; [congruence | exact Hf]. }
  destruct Hcase as [Hb | [Hb Hrest]].
  - exists [], b, l. split; [reflexivity|]. split; [exact Hb | intros x p []].
  - destruct (IH Hrest) as (l1 & e & l2 & -> & He & Hl1).
    exists (b :: l1), e, l2. split; [reflexivity|]. split; [exact He|].
    intros x p [<- | Hx]; [apply Hb | apply Hl1; exact Hx].
Qed.

Lemma first_language_None l short :
  first_language l short = None ->
  forall x p, In x l -> language_of x <> Ok (Some (short, p)).
Proof.
  induction l as [|b l IH]; cbn [first_language]; intros Hf x p; [intros []|].
  intros [<- | Hx].
  - destruct (language_of b) as [[[s p']|]| |]; try discriminate.
    destruct (bool_decide (s = short)) eqn:Hd; [discriminate|].
    apply bool_decide_eq_false in Hd. congruence.
  - apply IH; [|exact Hx].
    destruct (language_of b) as [[[s p']|]| |]; try exact Hf.
    destruct (bool_decide (s = short)); [discriminate | exact Hf].
Qed.

(** The path kept for a short name in a sorted listing is that of the
    least entry with this short name. *)
Lemma first_language_least dirEntries short path :
  first_language (sort_names dirEntries) short = Some path <->
  exists e, In e dirEntries /\ language_of e = Ok (Some (short, path)) /\
    forall other path', In other dirEntries ->
      language_of other = Ok (Some (short, path')) -> string_lt other e = false.
Proof.
  pose proof (sort_names_sorted dirEntries) as Hsorted.
  split.
  - intros Hf.
    destruct (first_language_Some _ _ _ Hf) as (l1 & e & l2 & Hl & He & Hl1).
    exists e. split; [|split; [exact He|]].
    + apply sort_names_In. rewrite Hl. apply in_or_app. right. left. reflexivity.
    + intros other path' Hin Ho. apply sort_names_In in Hin.
      rewrite Hl in Hin, Hsorted.
      apply in_app_or in Hin as [Hin | [<- | Hin]].
      * exfalso. exact (Hl1 _ _ Hin Ho).
      * apply string_lt_irrefl.
      * exact (sorted_split _ _ _ Hsorted _ Hin).
  - intros (e & Hin & He & Hleast).
    destruct (first_language (sort_names dirEntries) short) as [path'|] eqn:Hf.
    + destruct (first_language_Some _ _ _ Hf) as (l1 & e' & l2 & Hl & He' & Hl1).
      assert (Hin' : In e' dirEntries).
      { apply sort_names_In. rewrite Hl. apply in_or_app. right. left.
        reflexivity. }
      pose proof (Hleast _ _ Hin' He') as Hlt.
      apply sort_names_In in Hin. rewrite Hl in Hin, Hsorted.
      apply in_app_or in Hin as [Hin | [<- | Hin]].
      * exfalso. exact (Hl1 _ _ Hin He).
      * congruence.
      * pose proof (sorted_split _ _ _ Hsorted _ Hin) as Hlt'.
        pose proof (string_lt_total _ _ Hlt Hlt') as ->. congruence.
    + exfalso. apply sort_names_In in Hin.
      exact (first_language_None _ _ Hf _ _ Hin He).
Qed.

Lemma init_unfold dir :
  init range_keys dir =
    match dir with
    | None => Panic
    | Some dirEntries =>
        langs <-- foldM register ∅ (sort_names dirEntries) ;;
        Ok {| LANGUAGES := langs;
              languagesLowercase := index_lowercase ∅ (range_keys langs) |}
    end.
Proof.
  unfold init, populateLanguages. destruct dir as [dirEntries|]; [|reflexivity].
  cbn [LANGUAGES languagesLowercase].
  destruct (foldM_register_outcome (sort_names dirEntries) ∅)
    as [(-> & _) | ([langs' ->] & _)]; reflexivity.
Qed.

(** X14: [init] panics exactly when the directory cannot be listed or
    holds a file named [*.dic] with fewer than nine bytes in its name. *)
Theorem init_panics_iff dir :
  init range_keys dir = Panic <->
  dir = None \/
  exists dirEntries e, dir = Some dirEntries /\ In e dirEntries /\
    HasSuffix e (str ".dic") = true /\ length e < 9.
Proof.
  rewrite init_unfold. destruct dir as [dirEntries|];
    [|split; [left; reflexivity | reflexivity]].
  destruct (foldM_register_outcome (sort_names dirEntries) ∅)
    as [(-> & e & He & Hp) | ([langs' ->] & Hall)]; cbn [rbind].
  - split; [|reflexivity]. intros _. right. exists dirEntries, e.
    split; [reflexivity|]. split; [apply sort_names_In; exact He|].
    apply language_of_panics. exact Hp.
  - split; [discriminate|].
    intros [Hd | (d & e & [= <-] & He & Hs)]; [discriminate|].
    exfalso. apply (Hall e); [apply sort_names_In; exact He|].
    apply language_of_panics. exact Hs.
Qed.

(** X15: after [init], a short name has the path of the least entry, in
    the order of the names, among the [.dic] entries with this short
    name. *)
Theorem LANGUAGES_least_entry dirEntries r short path :
  init range_keys (Some dirEntries) = Ok r ->
  (LANGUAGES r !! short = Some path <->
   exists e, In e dirEntries /\ language_of e = Ok (Some (short, path)) /\
     forall other path', In other dirEntries ->
       language_of other = Ok (Some (short, path')) ->
       string_lt other e = false).
Proof.
  rewrite init_unfold.
  destruct (foldM register ∅ (sort_names dirEntries)) as [langs| |] eqn:Hf;
    cbn [rbind]; try discriminate.
  intros [= <-]. cbn [LANGUAGES].
  rewrite (foldM_register_lookup _ _ _ short Hf), lookup_empty.
  apply first_language_least.
Qed.

(** X16: what an entry of the directory stands for: a name of at least
    nine bytes ending in [.dic] gives the text between its first five and
    its last four bytes as the name of the dictionary, the part of it
    before the first underscore as the short name, and the path
    [dictionaries/<name>.txt]; the first five bytes are not looked at. *)
Theorem language_of_entry (pre name : gostring) :
  length pre = 5 ->
  language_of (pre ++ name ++ str ".dic") =
    Ok (Some (hd [] (strings.Split name "_"%byte),
              str "dictionaries/" ++ name ++ str ".txt")).
Proof.
  intros Hpre. rewrite language_of_outcome.
  assert (Hlen : length (pre ++ name ++ str ".dic") = length name + 9).
  { rewrite !length_app, Hpre. simpl. lia. }
  assert (Hs : HasSuffix (pre ++ name ++ str ".dic") (str ".dic") = true).
  { unfold HasSuffix. rewrite Hlen. apply andb_true_iff. split.
    - apply Nat.leb_le. simpl. lia.
    - apply bool_decide_eq_true.
      replace (length name + 9 - length (str ".dic"))
        with (length pre + length name) by (rewrite Hpre; simpl; lia).
      rewrite drop_app_add'  by reflexivity.
      rewrite drop_app_length. reflexivity. }
  rewrite Hs, Hlen.
  rewrite (proj2 (Nat.leb_le 9 (length name + 9))) by lia. cbn zeta.
  replace (length name + 9 - 9) with (length name) by lia.
  replace (drop 5 (pre ++ name ++ str ".dic")) with (name ++ str ".dic")
    by (rewrite <- Hpre, drop_app_length; reflexivity).
  rewrite take_app_length. reflexivity.
Qed.

(** *** The second loop and [LanguageFallback] *)

Lemma index_lowercase_sound order : forall low k name,
  index_lowercase low order !! k = Some name ->
  low !! k = Some name \/ (In name order /\ k = strings.ToLower name).
Proof.
  unfold index_lowercase.
  induction order as [|x order IH]; intros low k name; cbn [foldl].
  - intros Hk. left. exact Hk.
  - intros Hk. destruct (IH _ _ _ Hk) as [Hlow | [Hin ->]].
    + destruct (decide (strings.ToLower x = k)) as [<- | Hne].
      * rewrite lookup_insert_eq in Hlow. injection Hlow as <-.
        right. split; [left; reflexivity | reflexivity].
      * rewrite lookup_insert_ne in Hlow by exact Hne. left. exact Hlow.
    + right. split; [right; exact Hin | reflexivity].
Qed.

Lemma index_lowercase_keeps order : forall low k,
  is_Some (low !! k) -> is_Some (index_lowercase low order !! k).
Proof.
  unfold index_lowercase.
  induction order as [|x order IH]; intros low k Hk; cbn [foldl]; [exact Hk|].
  apply IH. destruct (decide (strings.ToLower x = k)) as [<- | Hne].
  - rewrite lookup_insert_eq. eauto.
  - rewrite lookup_insert_ne by exact Hne. exact Hk.
Qed.

Lemma index_lowercase_complete order : forall low name,
  In name order -> is_Some (index_lowercase low order !! strings.ToLower name).
Proof.
  induction order as [|x order IH]; intros low name; [intros []|].
  intros [<- | Hin].
  - unfold index_lowercase. cbn [foldl]. apply index_lowercase_keeps.
    rewrite lookup_insert_eq. eauto.
  - unfold index_lowercase. cbn [foldl]. apply (IH _ _ Hin).
Qed.

Lemma JoinSep_cons e rest sep :
  rest <> [] -> JoinSep (e :: rest) sep = e ++ sep :: JoinSep rest sep.
Proof. destruct rest; [congruence | reflexivity]. Qed.

Lemma JoinSep_Split (s : gostring) sep :
  JoinSep (strings.Split s sep) sep = s.
Proof.
  induction s as [|c s IH]; [reflexivity|]. cbn [strings.Split].
  pose proof (Split_nonempty s sep) as Hne.
  destruct (bool_decide (c = sep)) eqn:Hc.
  - apply bool_decide_eq_true in Hc as ->.
    rewrite JoinSep_cons by exact Hne. rewrite IH. reflexivity.
  - destruct (strings.Split s sep) as [|h r]; [congruence|].
    destruct r as [|h' r].
    + cbn [JoinSep] in *. congruence.
    + rewrite JoinSep_cons in IH by discriminate.
      rewrite JoinSep_cons by discriminate. rewrite <- IH. reflexivity.
Qed.

(** The tag cut before one of its separators. *)
Lemma JoinSep_take (parts : list gostring) sep : forall k,
  1 <= k -> k < length parts ->
  JoinSep parts sep
    = JoinSep (take k parts) sep ++ sep :: JoinSep (drop k parts) sep.
Proof.
  induction parts as [|e parts IH]; intros k Hk Hlen; [simpl in Hlen; lia|].
  cbn [length] in Hlen. destruct k as [|k]; [lia|]. cbn [take drop].
  destruct k as [|k].
  - rewrite take_0, drop_0. cbn [JoinSep].
    destruct parts; [simpl in Hlen; lia | reflexivity].
  - assert (Hne : parts <> []) by (destruct parts; [simpl in Hlen; lia | discriminate]).
    assert (Hne' : take (S k) parts <> []).
    { destruct parts; [congruence | discriminate]. }
    rewrite (JoinSep_cons e parts) by exact Hne.
    rewrite (JoinSep_cons e (take (S k) parts)) by exact Hne'.
    rewrite (IH (S k)) by lia. rewrite <- app_assoc. reflexivity.
Qed.

Lemma fallback_spec low parts : forall n,
  (fallback low parts n = [] /\
   forall k, 1 <= k <= n -> low !! JoinSep (take k parts) "_"%byte = None) \/
  (exists k, 1 <= k <= n /\
     low !! JoinSep (take k parts) "_"%byte = Some (fallback low parts n) /\
     forall k', k < k' <= n -> low !! JoinSep (take k' parts) "_"%byte = None).
Proof.
  induction n as [|n IH]; cbn [fallback].
  - left. split; [reflexivity | intros k Hk; lia].
  - destruct (low !! JoinSep (take (S n) parts) "_"%byte) as [name|] eqn:Hn.
    + right. exists (S n). split; [lia|]. split; [exact Hn | intros k' Hk'; lia].
    + destruct IH as [[Hf Hnone] | (k & Hk & Hfound & Hnone)].
      * left. split; [exact Hf|]. intros k Hk.
        destruct (decide (k = S n)) as [-> | Hne]; [exact Hn | apply Hnone; lia].
      * right. exists k. split; [lia|]. split; [exact Hfound|].
        intros k' Hk'.
        destruct (decide (k' = S n)) as [-> | Hne]; [exact Hn | apply Hnone; lia].
Qed.

(** X17: [LanguageFallback] returns the name registered for the longest
    registered prefix of the tag, the tag being lowercased, its dashes
    turned into underscores, and cut at the underscores only; it returns
    the empty string when no such prefix is registered. *)
Theorem LanguageFallback_longest_prefix (r : registry) (language : gostring) :
  let parts := strings.Split (normalize language) "_"%byte in
  let prefix k := JoinSep (take k parts) "_"%byte in
  prefix (length parts) = normalize language /\
  ((LanguageFallback r language = [] /\
    forall k, 1 <= k <= length parts -> languagesLowercase r !! prefix k = None)
   \/
   (exists k, 1 <= k <= length parts /\
      languagesLowercase r !! prefix k = Some (LanguageFallback r language) /\
      (forall k', k < k' <= length parts ->
                  languagesLowercase r !! prefix k' = None) /\
      (k < length parts ->
       normalize language
         = prefix k ++ "_"%byte :: JoinSep (drop k parts) "_"%byte))).
Proof.
  cbn zeta. split; [rewrite firstn_all; apply JoinSep_Split|].
  unfold LanguageFallback.
  destruct (fallback_spec (languagesLowercase r)
              (strings.Split (normalize language) "_"%byte)
              (length (strings.Split (normalize language) "_"%byte)))
    as [Hnone | (k & Hk & Hfound & Hnone)]; [left; exact Hnone|].
  right. exists k. split; [exact Hk|]. split; [exact Hfound|].
  split; [exact Hnone|]. intros Hlt.
  rewrite <- (JoinSep_Split (normalize language) "_"%byte) at 1.
  apply JoinSep_take; lia.
Qed.

(** X18: a tag that is registered as it stands, once lowercased and with
    underscores for dashes, gets its registered name. *)
Theorem LanguageFallback_exact (r : registry) (language name : gostring) :
  languagesLowercase r !! normalize language = Some name ->
  LanguageFallback r language = name.
Proof.
  intros Hreg. unfold LanguageFallback.
  pose proof (Split_nonempty (normalize language) "_"%byte) as Hne.
  destruct (length (strings.Split (normalize language) "_"%byte)) as [|n] eqn:Hlen.
  - destruct (strings.Split (normalize language) "_"%byte);
      [congruence | discriminate].
  - cbn [fallback]. rewrite <- Hlen, firstn_all, JoinSep_Split, Hreg.
    reflexivity.
Qed.

Lemma normalize_ascii (language : gostring) :
  forallb is_ascii language = true ->
  normalize language
    = map (fun c => if bool_decide (strings.lower_byte c = "-"%byte)
                    then "_"%byte else strings.lower_byte c) language.
Proof.
  intros Ha. unfold normalize, strings.ToLower, ReplaceAll.
  rewrite Ha, map_map. reflexivity.
Qed.

(** X19: on ASCII tags, [LanguageFallback] does not tell upper case from
    lower case, nor a dash from an underscore. *)
Theorem LanguageFallback_ascii_insensitive (r : registry) (language : gostring) :
  forallb is_ascii language = true ->
  LanguageFallback r (strings.ToUpper language) = LanguageFallback r language /\
  LanguageFallback r (ReplaceAll language "-"%byte "_"%byte)
    = LanguageFallback r language.
Proof.
  intros Ha.
  assert (Hup : normalize (strings.ToUpper language) = normalize language).
  { unfold normalize.
    destruct (ascii_case_foldable language Ha) as [_ ->]. reflexivity. }
  assert (Hdash : normalize (ReplaceAll language "-"%byte "_"%byte)
                  = normalize language).
  { rewrite (normalize_ascii language Ha).
    rewrite normalize_ascii.
    - unfold ReplaceAll. rewrite map_map. apply map_ascii_ext; [|exact Ha].
      intros c _. destruct (bool_decide (c = "-"%byte)) eqn:Hc.
      + apply bool_decide_eq_true in Hc as ->. reflexivity.
      + reflexivity.
    - apply forallb_ascii_map; [|exact Ha].
      intros c Hc. destruct (bool_decide (c = "-"%byte)); [reflexivity | exact Hc]. }
  unfold LanguageFallback. rewrite Hup, Hdash. split; reflexivity.
Qed.

(** X20: when [range] goes through every key of a map, the lowercase index
    built by [init] holds, for every language of [LANGUAGES], its
    lowercased name, and nothing else: each key is the lowercase of its
    value, which is a key of [LANGUAGES]. *)
Theorem languagesLowercase_content dir r :
  (forall m name, In name (range_keys m) <-> is_Some (m !! name)) ->
  init range_keys dir = Ok r ->
  (forall k name, languagesLowercase r !! k = Some name ->
                  is_Some (LANGUAGES r !! name) /\ k = strings.ToLower name) /\
  (forall name, is_Some (LANGUAGES r !! name) ->
     exists name', languagesLowercase r !! strings.ToLower name = Some name' /\
                   strings.ToLower name' = strings.ToLower name).
Proof.
  intros Hkeys. rewrite init_unfold. destruct dir as [dirEntries|]; [|discriminate].
  destruct (foldM register ∅ (sort_names dirEntries)) as [langs| |];
    cbn [rbind]; try discriminate.
  intros [= <-]. cbn [LANGUAGES languagesLowercase]. split.
  - intros k name Hk.
    destruct (index_lowercase_sound _ _ _ _ Hk) as [He | [Hin ->]].
    + rewrite lookup_empty in He. discriminate.
    + split; [apply Hkeys; exact Hin | reflexivity].
  - intros name Hname. apply Hkeys in Hname.
    destruct (index_lowercase_complete _ ∅ _ Hname) as [name' Hn'].
    exists name'. split; [exact Hn'|].
    destruct (index_lowercase_sound _ _ _ _ Hn') as [He | [_ Heq]].
    + rewrite lookup_empty in He. discriminate.
    + symmetry. exact Heq.
Qed.

(** X21: after [init], [LanguageFallback] returns the empty string or a
    language that [LANGUAGES] has a dictionary for. *)
Theorem LanguageFallback_has_dictionary dir r language :
  (forall m name, In name (range_keys m) -> is_Some (m !! name)) ->
  init range_keys dir = Ok r ->
  LanguageFallback r language = [] \/
  is_Some (LANGUAGES r !! LanguageFallback r language).
Proof.
  intros Hkeys. rewrite init_unfold. destruct dir as [dirEntries|]; [|discriminate].
  destruct (foldM register ∅ (sort_names dirEntries)) as [langs| |];
    cbn [rbind]; try discriminate.
  intros [= <-]. unfold LanguageFallback. cbn [LANGUAGES languagesLowercase].
  destruct (fallback_spec (index_lowercase ∅ (range_keys langs))
              (strings.Split (normalize language) "_"%byte)
              (length (strings.Split (normalize language) "_"%byte)))
    as [[Hnone _] | (k & _ & Hfound & _)]; [left; exact Hnone|].
  right. destruct (index_lowercase_sound _ _ _ _ Hfound) as [He | [Hin _]].
  - rewrite lookup_empty in He. discriminate.
  - apply Hkeys. exact Hin.
Qed.

End RegistryProperties.

(** ** The accumulator of the scan *)

Section ScanMore.
Context `{Unicode}.

Lemma window_slot pats pw (refs refs' : list iface) i j g :
  window pats pw refs (i, j) = Ok refs' ->
  exists sub, subWord pw i j = Ok sub /\
    slot refs' g =
      match pats !! sub with
      | Some e =>
          if decide (i + start e <= g < i + start e + length (values e))
          then Z.max (slot refs g) (slot (values e) (g - (i + start e)))
          else slot refs g
      | None => slot refs g
      end.
Proof.
  unfold window. cbn [fst snd].
  destruct (subWord pw i j) as [sub| |]; cbn [rbind]; try discriminate.
  intros Hw. exists sub. split; [reflexivity|].
  destruct (pats !! sub) as [e|].
  - apply (merge_values_max _ _ _ _ g Hw).
  - injection Hw as <-. reflexivity.
Qed.

Lemma foldM_window_slots pats pw ws : forall (refs0 refs : list iface),
  foldM (window pats pw) refs0 ws = Ok refs ->
  forall g,
    (slot refs0 g <= slot refs g)%Z /\
    (forall i j sub e,
       In (i, j) ws -> subWord pw i j = Ok sub -> pats !! sub = Some e ->
       i + start e <= g < i + start e + length (values e) ->
       (slot (values e) (g - (i + start e)) <= slot refs g)%Z) /\
    (slot refs g = slot refs0 g \/
     exists i j sub e,
       In (i, j) ws /\ subWord pw i j = Ok sub /\ pats !! sub = Some e /\
       i + start e <= g < i + start e + length (values e) /\
       slot refs g = slot (values e) (g - (i + start e))).
Proof.
  induction ws as [|[i j] ws IH]; intros refs0 refs; cbn [foldM].
  - intros [= <-] g. split; [lia|]. split; [intros ? ? ? ? []|]. left. reflexivity.
  - destruct (window pats pw refs0 (i, j)) as [r1| |] eqn:Hw; cbn [rbind];
      try discriminate.
    intros Hf g.
    destruct (IH _ _ Hf g) as (Hge & Hdom & Hach).
    destruct (window_slot _ _ _ _ _ _ g Hw) as (sub & Hsub & Hslot).
    split; [|split].
    + destruct (pats !! sub) as [e|]; [destruct (decide _)|]; lia.
    + intros i' j' sub' e' [[= <- <-] | Hin] Hsub' He' Hrange.
      * rewrite Hsub in Hsub'. injection Hsub' as <-. rewrite He' in Hslot.
        rewrite decide_True in Hslot by exact Hrange. lia.
      * exact (Hdom _ _ _ _ Hin Hsub' He' Hrange).
    + destruct Hach as [Heq | (i' & j' & sub' & e' & Hin & Hs' & He' & Hr' & Heq)].
      * rewrite Heq.
        destruct (pats !! sub) as [e|] eqn:He; [|left; exact Hslot].
        destruct (decide (i + start e <= g < i + start e + length (values e)))
          as [Hr | Hr]; [|left; exact Hslot].
        destruct (Z.max_spec (slot refs0 g) (slot (values e) (g - (i + start e))))
          as [[_ Hm] | [_ Hm]]; rewrite Hm in Hslot.
        -- right. exists i, j, sub, e.
           split; [left; reflexivity|]. auto.
        -- left. exact Hslot.
      * right. exists i', j', sub', e'. split; [right; exact Hin|]. auto.
Qed.

Lemma slot_replicate_nil n g : slot (replicate n INil) g = 0%Z.
Proof.
  unfold slot. destruct (replicate n INil !! g) as [v|] eqn:Hv; [|reflexivity].
  apply lookup_replicate in Hv as [-> _]. reflexivity.
Qed.

(** X22: after the scan, every slot of the accumulator holds the greatest
    of the weights that the patterns found in the windows put on this
    slot, and 0 when no pattern reaches it with a positive weight. *)
Theorem scan_greatest_weight pats maxlen word references :
  scan pats maxlen word = Ok references ->
  forall g,
    (0 <= slot references g)%Z /\
    (forall i j sub e,
       In (i, j) (windows maxlen (utf8.RuneCountInString (pointed word))) ->
       subWord (pointed word) i j = Ok sub -> pats !! sub = Some e ->
       i + start e <= g < i + start e + length (values e) ->
       (slot (values e) (g - (i + start e)) <= slot references g)%Z) /\
    (slot references g = 0%Z \/
     exists i j sub e,
       In (i, j) (windows maxlen (utf8.RuneCountInString (pointed word))) /\
       subWord (pointed word) i j = Ok sub /\ pats !! sub = Some e /\
       i + start e <= g < i + start e + length (values e) /\
       slot references g = slot (values e) (g - (i + start e))).
Proof.
  unfold scan. intros Hscan g.
  destruct (foldM_window_slots _ _ _ _ _ Hscan g) as (Hge & Hdom & Hach).
  rewrite slot_replicate_nil in Hge, Hach. auto.
Qed.

Lemma replace_hex_plain (s : gostring) :
  ~ In "^"%byte s -> regexp.replace_hex s = s.
Proof.
  induction s as [|c s IH]; intros Hs; [reflexivity|].
  cbn [regexp.replace_hex].
  assert (Hc : bool_decide (c = "^"%byte) = false).
  { apply bool_decide_eq_false. intros ->. apply Hs. left. reflexivity. }
  assert (Hrest : regexp.replace_hex s = s).
  { apply IH. intros Hin. apply Hs. right. exact Hin. }
  rewrite Hc. cbn [andb].
  destruct s as [|c2 [|h1 [|h2 t]]]; rewrite Hrest; reflexivity.
Qed.

(** X23: a line without a circumflex goes through the replacement of the
    [^^hh] escapes unchanged: the loader works on the line trimmed of its
    spaces. *)
Theorem effective_plain_line (line : gostring) :
  ~ In "^"%byte (strings.TrimSpace line) ->
  effective line = None \/ effective line = Some (strings.TrimSpace line).
Proof.
  intros Hplain. unfold effective.
  destruct (bool_decide (strings.TrimSpace line = [])); [left; reflexivity|].
  destruct (existsb _ ignored); [left; reflexivity|].
  right. rewrite replace_hex_plain by exact Hplain. reflexivity.
Qed.

End ScanMore.

(** ** The further properties on concrete text *)

Lemma keys_in_order_spec (m : gmap gostring gostring) name :
  In name (keys_in_order m) <-> is_Some (m !! name).
Proof.
  unfold keys_in_order. rewrite <- list_elem_of_In, list_elem_of_fmap. split.
  - intros ([k v] & -> & Hin). apply elem_of_map_to_list in Hin. eauto.
  - intros [v Hv]. exists (name, v). split; [reflexivity|].
    apply elem_of_map_to_list. exact Hv.
Qed.


Lemma Positions_history_independent_witness :
  let hd := loaded (file_of ["UTF-8"; "hy3p"]%string) in
  exists hd',
    @Positions caseless_text hd (str "Hyphen")
      = Ok ([{| value := 2; data := None |}], hd') /\
    patterns hd' = patterns hd /\ maxlen hd' = maxlen hd /\
    forall other,
      rmap fst (@Positions caseless_text hd' other)
        = rmap fst (@Positions caseless_text hd other).
Proof.
  intros hd. eexists. split; [vm_compute; reflexivity|].
  apply (@Positions_history_independent caseless_text hd (str "Hyphen")
           [{| value := 2; data := None |}]).
  - apply (loaded_reachable ["UTF-8"; "hy3p"]%string). vm_compute. reflexivity.
  - vm_compute. reflexivity.
Defined.

Lemma Positions_ascending_witness :
  StronglySorted Z.lt
    (map value [{| value := 1; data := None |}; {| value := 2; data := None |}]).
Proof.
  eapply (@Positions_ascending caseless_text
            (loaded (file_of ["UTF-8"; "a1b"; "b1c"]%string)) (str "abc")).
  - apply (loaded_reachable ["UTF-8"; "a1b"; "b1c"]%string). vm_compute. reflexivity.
  - vm_compute. reflexivity.
Defined.

Lemma Positions_total_witness :
  exists points hd',
    @Positions caseless_text (loaded (file_of ["UTF-8"; "a1b"; "b1c"]%string))
               (str "abc")
      = Ok (points, hd').
Proof.
  apply (@Positions_total caseless_text).
  intros key e Hk. apply elem_of_map_to_list in Hk.
  vm_compute in Hk. apply list_elem_of_In in Hk.
  destruct Hk as [[= <- <-] | [[= <- <-] | []]]; vm_compute; lia.
Defined.

Lemma stored_entry_origin_witness :
  exists line,
    In line (@pattern_lines caseless_text data_a1_hyp) /\
    @produces caseless_text line (str ".hyp") {| start := 3; values := [IInt 3] |}.
Proof.
  apply (@stored_entry_origin caseless_text data_a1_hyp (loaded (Some data_a1_hyp))).
  - vm_compute. reflexivity.
  - vm_compute. reflexivity.
Defined.

Lemma stored_key_is_pattern_without_digits_witness :
  exists line pattern,
    In line (@pattern_lines caseless_text data_a1_hyp) /\
    @base_pattern caseless_text line = Some pattern /\
    str ".hyp" = filter (fun b => nondigit b = true) pattern.
Proof.
  apply (@stored_key_is_pattern_without_digits caseless_text data_a1_hyp
           (loaded (Some data_a1_hyp)) (str ".hyp")
           {| start := 3; values := [IInt 3] |}).
  - vm_compute. reflexivity.
  - vm_compute. reflexivity.
Defined.

Lemma stored_weights_are_digits_witness :
  let weight :=
    IData {| value := 1; data := Some [str "ss=s"; str "-1"; str "2"] |} in
  Forall (fun v => one_digit v /\ three_fields v) [weight].
Proof.
  intros weight.
  apply (@stored_weights_are_digits caseless_text
           (file_of ["UTF-8"; "s1s/ss=s,1,2"]%string)
           (loaded (file_of ["UTF-8"; "s1s/ss=s,1,2"]%string)) (str "ss")
           {| start := 1; values := [weight] |}).
  - vm_compute. reflexivity.
  - vm_compute. reflexivity.
Defined.

Lemma digit_pairs_free_never_panics_witness :
  let hd := loaded (Some data_a1_hyp) in
  fits (patterns hd) /\
  forall hd' word, patterns hd' = patterns hd ->
    exists points hd'', @Positions caseless_text hd' word = Ok (points, hd'').
Proof.
  intros hd.
  apply (@digit_pairs_free_never_panics caseless_text data_a1_hyp hd).
  - vm_compute. reflexivity.
  - intros line pattern Hin Hb. vm_compute in Hin.
    destruct Hin as [<- | [<- | []]]; vm_compute in Hb;
      injection Hb as <-; reflexivity.
Defined.

Lemma points_data_three_strings_witness :
  Forall (fun p => data p = None \/ exists a b c, data p = Some [a; b; c])
    [{| value := 1; data := None |};
     {| value := 3; data := Some [str "ss=s"; str "-1"; str "2"] |}].
Proof.
  eapply (@points_data_three_strings caseless_text
            (loaded (file_of ["UTF-8"; "a1b"; "s1s/ss=s,1,2"]%string))
            (str "abss")).
  - apply (loaded_reachable ["UTF-8"; "a1b"; "s1s/ss=s,1,2"]%string).
    vm_compute. reflexivity.
  - vm_compute. reflexivity.
Defined.

Lemma scan_greatest_weight_witness :
  let hd := loaded (file_of ["UTF-8"; "a1b"; "a3bc"; "b2c"]%string) in
  exists references,
    scan (patterns hd) (maxlen hd) (str "abc") = Ok references /\
    forall g, (0 <= slot references g)%Z.
Proof.
  intros hd. eexists. split; [vm_compute; reflexivity|].
  intros g.
  apply (scan_greatest_weight (patterns hd) (maxlen hd) (str "abc")).
  vm_compute. reflexivity.
Defined.

Lemma effective_plain_line_witness :
  @effective caseless_text (str " hy3p ") = None \/
  @effective caseless_text (str " hy3p ")
    = Some (@strings.TrimSpace caseless_text (str " hy3p ")).
Proof.
  apply (@effective_plain_line caseless_text).
  vm_compute. intros Hin.
  repeat (destruct Hin as [Hin | Hin]; [discriminate|]). exact Hin.
Defined.

Lemma LANGUAGES_least_entry_witness :
  let names := ["hyph_en_US.dic"; "hyph_en_GB.dic"; "README"]%string in
  LANGUAGES (registered names) !! str "en" = Some (str "dictionaries/en_GB.txt")
  <->
  exists e, In e (map str names) /\
    language_of e = Ok (Some (str "en", str "dictionaries/en_GB.txt")) /\
    forall other path', In other (map str names) ->
      language_of other = Ok (Some (str "en", path')) ->
      string_lt other e = false.
Proof.
  intros names.
  apply (@LANGUAGES_least_entry caseless_text keys_in_order).
  vm_compute. reflexivity.
Defined.

Lemma language_of_entry_witness :
  language_of (str "hyph_" ++ str "en_US" ++ str ".dic")
    = Ok (Some (hd [] (strings.Split (str "en_US") "_"%byte),
                str "dictionaries/" ++ str "en_US" ++ str ".txt")).
Proof. apply (language_of_entry (str "hyph_") (str "en_US")). reflexivity. Defined.

Lemma LanguageFallback_exact_witness :
  @LanguageFallback caseless_text
     (registered ["hyph_en_US.dic"; "hyph_Zu.dic"]%string) (str "ZU")
    = str "Zu".
Proof.
  apply (@LanguageFallback_exact caseless_text). vm_compute. reflexivity.
Defined.

Lemma LanguageFallback_ascii_insensitive_witness :
  let r := registered ["hyph_en_US.dic"]%string in
  @LanguageFallback caseless_text r (@strings.ToUpper caseless_text (str "en-us"))
    = @LanguageFallback caseless_text r (str "en-us") /\
  @LanguageFallback caseless_text r (ReplaceAll (str "en-us") "-"%byte "_"%byte)
    = @LanguageFallback caseless_text r (str "en-us").
Proof.
  intros r. apply (@LanguageFallback_ascii_insensitive caseless_text).
  vm_compute. reflexivity.
Defined.

Lemma languagesLowercase_content_witness :
  let r := registered ["hyph_en_US.dic"; "hyph_Zu.dic"]%string in
  (forall k name, languagesLowercase r !! k = Some name ->
     is_Some (LANGUAGES r !! name) /\ k = @strings.ToLower caseless_text name) /\
  (forall name, is_Some (LANGUAGES r !! name) ->
     exists name',
       languagesLowercase r !! @strings.ToLower caseless_text name = Some name' /\
       @strings.ToLower caseless_text name' = @strings.ToLower caseless_text name).
Proof.
  intros r.
  apply (@languagesLowercase_content caseless_text keys_in_order
           (Some (map str ["hyph_en_US.dic"; "hyph_Zu.dic"]%string))).
  - apply keys_in_order_spec.
  - vm_compute. reflexivity.
Defined.

Lemma LanguageFallback_has_dictionary_witness :
  let r := registered ["hyph_en_US.dic"; "hyph_Zu.dic"]%string in
  @LanguageFallback caseless_text r (str "en-GB") = [] \/
  is_Some (LANGUAGES r !! @LanguageFallback caseless_text r (str "en-GB")).
Proof.
  intros r.
  apply (@LanguageFallback_has_dictionary caseless_text keys_in_order
           (Some (map str ["hyph_en_US.dic"; "hyph_Zu.dic"]%string))).
  - intros m name. apply keys_in_order_spec.
  - vm_compute. reflexivity.
Defined.
